(** * Value-transfer records of zen: amount, duplication and interaction checks

    A shallow embedding of [src/primitives/transaction.cpp]: the checks of
    [CTransactionBase] ([CheckInputsAmount], [CheckOutputsAmount],
    [CheckInputsDuplication], [CheckInputsInteraction]), the value queries of
    [CTransaction] ([GetValueOut], [GetJoinSplitValueIn], [GetValueIn]), the
    range check of crosschain outputs ([CTxCrosschainOut::CheckAmountRange])
    and the shuffle of joinsplit inputs and outputs
    ([JSDescription::Randomized]).

    Conventions.
    - [CAmount] is [int64_t]; it is embedded as [Z], and every [+=] of the
      source is [add64], the sum reduced to the two's complement range.
    - A method that reports through a [CValidationState&] becomes a function
      from the state to the returned [bool] and the state afterwards.
    - A method that throws becomes a function to [option].
    - [uint256] and [uint32_t] values are embedded as [N]. *)

From Stdlib Require Import ZArith Lia Ascii.
From stdpp Require Import base option list gmap strings pretty.

Local Open Scope Z_scope.

(** ** 64-bit amounts *)

Definition CAmount : Type := Z.

Definition INT64_MIN : Z := - 2 ^ 63.
Definition INT64_MAX : Z := 2 ^ 63 - 1.

Definition int64 (z : Z) : Prop := INT64_MIN <= z <= INT64_MAX.

(** Reduction of an integer to the range of [int64_t]. *)
Definition wrap64 (z : Z) : Z := (z + 2 ^ 63) mod 2 ^ 64 - 2 ^ 63.

(** [a += b] on [CAmount]. *)
Definition add64 (a b : CAmount) : CAmount := wrap64 (a + b).

(** The money unit has eight decimals. *)
Definition COIN : CAmount := 100000000.

(** ** Validation state *)

Inductive RejectCode : Type :=
  | REJECT_INVALID
  | REJECT_CHECKBLOCKATHEIGHT_NOT_FOUND.

(** Modelled from the spec: [CValidationState] and its method [DoS] are
    declared in [consensus/validation.h], which is not part of the sources at
    hand.  The spec describes the sink as an accumulator that receives
    (rejection code, rejection reason, misbehaviour score) triples; the state
    is the list of the triples received so far, oldest first. *)
Record Rejection : Type := mkRejection {
  chRejectCode : RejectCode;
  strRejectReason : string;
  nDoS : Z
}.

Definition CValidationState : Type := list Rejection.

(** [state.DoS(level, ret, code, reason)] records the triple and returns
    [ret]. *)
Definition DoS (level : Z) (ret : bool) (code : RejectCode) (reason : string)
    (state : CValidationState) : bool * CValidationState :=
  (ret, state ++ [mkRejection code reason level]).

(** [error(msg)] logs the message and returns [false]. *)
Definition error (msg : string) : bool := false.

(** Outcome of one pass through a loop body that may return from the enclosing
    function: either the loop goes on with the updated local, or the function
    returns. *)
Inductive flow (A : Type) : Type :=
  | Continue (a : A)
  | Return (r : bool * CValidationState).
Arguments Continue {A} a.
Arguments Return {A} r.

(** ** Data model *)

Definition uint256 : Type := N.

Record COutPoint : Type := mkOutPoint {
  hash : uint256;
  n : N
}.

#[export] Instance COutPoint_eq_dec : EqDecision COutPoint.
Proof. solve_decision. Defined.

Definition COutPoint_to_pair (o : COutPoint) : uint256 * N := (hash o, n o).
Definition COutPoint_of_pair (p : uint256 * N) : COutPoint := mkOutPoint (fst p) (snd p).

#[export] Instance COutPoint_countable : Countable COutPoint.
Proof.
  apply (inj_countable' COutPoint_to_pair COutPoint_of_pair).
  intros [h i]. reflexivity.
Defined.

Record CTxIn : Type := mkTxIn {
  prevout : COutPoint;
  scriptSig : list Byte.byte;
  nSequence : N
}.

Record CTxOut : Type := mkTxOut {
  nValue : CAmount;
  scriptPubKey : list Byte.byte;
  isFromBackwardTransfer : bool
}.

(** The fields of [JSDescription] the checks read.  The proof, the
    commitments, the ciphertexts and the macs play no part in them. *)
Record JSDescription : Type := mkJSDescription {
  vpub_old : CAmount;
  vpub_new : CAmount;
  anchor : uint256;
  nullifiers : uint256 * uint256
}.

(** Iteration over [joinsplit.nullifiers], an array of two. *)
Definition nullifiers_list (js : JSDescription) : list uint256 :=
  [fst (nullifiers js); snd (nullifiers js)].

(** The base class of the three crosschain outputs. *)
Record CTxCrosschainOut : Type := mkCrosschainOut {
  cc_nValue : CAmount;
  cc_address : uint256;
  cc_scId : uint256
}.

Record CTxScCreationOut : Type := mkScCreationOut {
  sc_base : CTxCrosschainOut;
  withdrawalEpochLength : Z;
  customData : list Byte.byte
}.

Record CTxCertifierLockOut : Type := mkCertifierLockOut {
  cl_base : CTxCrosschainOut;
  activeFromWithdrawalEpoch : Z
}.

Record CTxForwardTransferOut : Type := mkForwardTransferOut {
  ft_base : CTxCrosschainOut
}.

(** The three variants derive from [CTxCrosschainOut]. *)
Class CrosschainOut (T : Type) : Type := as_crosschain : T -> CTxCrosschainOut.

#[export] Instance ScCreationOut_cc : CrosschainOut CTxScCreationOut := sc_base.
#[export] Instance CertifierLockOut_cc : CrosschainOut CTxCertifierLockOut := cl_base.
#[export] Instance ForwardTransferOut_cc : CrosschainOut CTxForwardTransferOut := ft_base.

Record CTransaction : Type := mkTransaction {
  nVersion : Z;
  vin : list CTxIn;
  vout : list CTxOut;
  vsc_ccout : list CTxScCreationOut;
  vcl_ccout : list CTxCertifierLockOut;
  vft_ccout : list CTxForwardTransferOut;
  nLockTime : N;
  vjoinsplit : list JSDescription;
  joinSplitPubKey : uint256
}.

Definition GetVin (tx : CTransaction) : list CTxIn := vin tx.
Definition GetVout (tx : CTransaction) : list CTxOut := vout tx.
Definition GetVjoinsplit (tx : CTransaction) : list JSDescription := vjoinsplit tx.

(** ** The checks and queries *)

Section Transaction.

(** [MAX_MONEY] is a constant of [amount.h]; the checks are embedded for any
    value of it. *)
Variable MAX_MONEY : CAmount.

(** [COutPoint::IsNull] is declared in [primitives/transaction.h]; the checks
    are embedded for any such test. *)
Variable IsNull : COutPoint -> bool.

(** Modelled from the spec: [MoneyRange] is declared in [amount.h], which is
    not part of the sources at hand.  The spec bounds an amount by
    [[0, MAX_MONEY]]. *)
Definition MoneyRange (nValue : CAmount) : bool :=
  (0 <=? nValue) && (nValue <=? MAX_MONEY).

(** Modelled from the spec: [IsCoinBase] is declared in
    [primitives/transaction.h].  The spec: a record is a coinbase when it has
    a single input and that input references the null prior output. *)
Definition IsCoinBase (tx : CTransaction) : bool :=
  match GetVin tx with
  | [txin] => IsNull (prevout txin)
  | _ => false
  end.

(** [CTxCrosschainOut::CheckAmountRange(CAmount& cumulatedAmount)]: the
    returned flag and the accumulator of the caller afterwards. *)
Definition CheckAmountRange (out : CTxCrosschainOut) (cumulatedAmount : CAmount)
    : bool * CAmount :=
  if (cc_nValue out =? 0) || negb (MoneyRange (cc_nValue out)) then
    (false, cumulatedAmount)
  else
    let cumulatedAmount := add64 cumulatedAmount (cc_nValue out) in
    if negb (MoneyRange cumulatedAmount) then (false, cumulatedAmount)
    else (true, cumulatedAmount).

(** [CTransactionBase::GetValueOut]; [None] stands for the exception. *)
Fixpoint GetValueOut_vout (vout : list CTxOut) (nValueOut : CAmount)
    : option CAmount :=
  match vout with
  | [] => Some nValueOut
  | it :: rest =>
      let nValueOut := add64 nValueOut (nValue it) in
      if negb (MoneyRange (nValue it)) || negb (MoneyRange nValueOut) then None
      else GetValueOut_vout rest nValueOut
  end.

Definition CTransactionBase_GetValueOut (tx : CTransaction) : option CAmount :=
  GetValueOut_vout (GetVout tx) 0.

(** [CTransactionBase::CheckInputsAmount]. *)
Fixpoint CheckInputsAmount_loop (vjs : list JSDescription)
    (nCumulatedValueIn : CAmount) (state : CValidationState)
    : bool * CValidationState :=
  match vjs with
  | [] => (true, state)
  | it :: rest =>
      let nCumulatedValueIn := add64 nCumulatedValueIn (vpub_new it) in
      if negb (MoneyRange (vpub_new it)) || negb (MoneyRange nCumulatedValueIn) then
        DoS 100 (error "CheckTransaction(): txin total out of range")
            REJECT_INVALID "bad-txns-txintotal-toolarge" state
      else CheckInputsAmount_loop rest nCumulatedValueIn state
  end.

Definition CheckInputsAmount (tx : CTransaction) (state : CValidationState)
    : bool * CValidationState :=
  CheckInputsAmount_loop (GetVjoinsplit tx) 0 state.

(** [CTransactionBase::CheckOutputsAmount], first loop: the transparent
    outputs. *)
Fixpoint CheckOutputsAmount_vout (vout : list CTxOut)
    (nCumulatedValueOut : CAmount) (state : CValidationState) : flow CAmount :=
  match vout with
  | [] => Continue nCumulatedValueOut
  | txout :: rest =>
      if nValue txout <? 0 then
        Return (DoS 100 (error "CheckOutputAmounts(): txout.nValue negative")
                    REJECT_INVALID "bad-txns-vout-negative" state)
      else if MAX_MONEY <? nValue txout then
        Return (DoS 100 (error "CheckOutputAmounts(): txout.nValue too high")
                    REJECT_INVALID "bad-txns-vout-toolarge" state)
      else
        let nCumulatedValueOut := add64 nCumulatedValueOut (nValue txout) in
        if negb (MoneyRange nCumulatedValueOut) then
          Return (DoS 100 (error "CheckOutputAmounts(): txout total out of range")
                      REJECT_INVALID "bad-txns-txouttotal-toolarge" state)
        else CheckOutputsAmount_vout rest nCumulatedValueOut state
  end.

(** Second loop: the joinsplits, on the total the first loop left. *)
Fixpoint CheckOutputsAmount_joinsplit (vjs : list JSDescription)
    (nCumulatedValueOut : CAmount) (state : CValidationState)
    : bool * CValidationState :=
  match vjs with
  | [] => (true, state)
  | joinsplit :: rest =>
      if vpub_old joinsplit <? 0 then
        DoS 100 (error "CheckOutputAmounts(): joinsplit.vpub_old negative")
            REJECT_INVALID "bad-txns-vpub_old-negative" state
      else if vpub_new joinsplit <? 0 then
        DoS 100 (error "CheckOutputAmounts(): joinsplit.vpub_new negative")
            REJECT_INVALID "bad-txns-vpub_new-negative" state
      else if MAX_MONEY <? vpub_old joinsplit then
        DoS 100 (error "CheckOutputAmounts(): joinsplit.vpub_old too high")
            REJECT_INVALID "bad-txns-vpub_old-toolarge" state
      else if MAX_MONEY <? vpub_new joinsplit then
        DoS 100 (error "CheckOutputAmounts(): joinsplit.vpub_new too high")
            REJECT_INVALID "bad-txns-vpub_new-toolarge" state
      else if negb (vpub_new joinsplit =? 0) && negb (vpub_old joinsplit =? 0) then
        DoS 100 (error "CheckOutputAmounts(): joinsplit.vpub_new and joinsplit.vpub_old both nonzero")
            REJECT_INVALID "bad-txns-vpubs-both-nonzero" state
      else
        let nCumulatedValueOut := add64 nCumulatedValueOut (vpub_old joinsplit) in
        if negb (MoneyRange nCumulatedValueOut) then
          DoS 100 (error "CheckOutputAmounts(): txout total out of range")
              REJECT_INVALID "bad-txns-txouttotal-toolarge" state
        else CheckOutputsAmount_joinsplit rest nCumulatedValueOut state
  end.

Definition CheckOutputsAmount (tx : CTransaction) (state : CValidationState)
    : bool * CValidationState :=
  match CheckOutputsAmount_vout (GetVout tx) 0 state with
  | Return r => r
  | Continue nCumulatedValueOut =>
      CheckOutputsAmount_joinsplit (GetVjoinsplit tx) nCumulatedValueOut state
  end.

(** [CTransactionBase::CheckInputsDuplication], first loop.  The
    [std::set<COutPoint>] is ordered by hash, then index, so that two keys are
    equivalent exactly when both fields are equal. *)
Fixpoint CheckInputsDuplication_vin (vin : list CTxIn)
    (vInOutPoints : gset COutPoint) (state : CValidationState) : flow unit :=
  match vin with
  | [] => Continue tt
  | txin :: rest =>
      if decide (prevout txin ∈ vInOutPoints) then
        Return (DoS 100 (error "CheckInputsDuplications(): duplicate inputs")
                    REJECT_INVALID "bad-txns-inputs-duplicate" state)
      else CheckInputsDuplication_vin rest ({[prevout txin]} ∪ vInOutPoints) state
  end.

(** The inner loop over the nullifiers of one joinsplit. *)
Fixpoint CheckInputsDuplication_nf (nfs : list uint256)
    (vJoinSplitNullifiers : gset uint256) (state : CValidationState)
    : flow (gset uint256) :=
  match nfs with
  | [] => Continue vJoinSplitNullifiers
  | nf :: rest =>
      if decide (nf ∈ vJoinSplitNullifiers) then
        Return (DoS 100 (error "CheckInputsDuplications(): duplicate nullifiers")
                    REJECT_INVALID "bad-joinsplits-nullifiers-duplicate" state)
      else CheckInputsDuplication_nf rest ({[nf]} ∪ vJoinSplitNullifiers) state
  end.

(** The outer loop over the joinsplits. *)
Fixpoint CheckInputsDuplication_joinsplit (vjs : list JSDescription)
    (vJoinSplitNullifiers : gset uint256) (state : CValidationState)
    : bool * CValidationState :=
  match vjs with
  | [] => (true, state)
  | joinsplit :: rest =>
      match CheckInputsDuplication_nf (nullifiers_list joinsplit)
              vJoinSplitNullifiers state with
      | Return r => r
      | Continue vJoinSplitNullifiers =>
          CheckInputsDuplication_joinsplit rest vJoinSplitNullifiers state
      end
  end.

Definition CheckInputsDuplication (tx : CTransaction) (state : CValidationState)
    : bool * CValidationState :=
  match CheckInputsDuplication_vin (GetVin tx) ∅ state with
  | Return r => r
  | Continue _ => CheckInputsDuplication_joinsplit (GetVjoinsplit tx) ∅ state
  end.

(** [CTransactionBase::CheckInputsInteraction], the loop of the second
    branch. *)
Fixpoint CheckInputsInteraction_vin (vin : list CTxIn) (state : CValidationState)
    : bool * CValidationState :=
  match vin with
  | [] => (true, state)
  | txin :: rest =>
      if IsNull (prevout txin) then
        DoS 10 (error "CheckInputsInteraction(): prevout is null")
            REJECT_INVALID "bad-txns-prevout-null" state
      else CheckInputsInteraction_vin rest state
  end.

(** [GetVin()[0]] is read only under [IsCoinBase], where it exists; the
    source has no behaviour for an empty [vin] there and the model leaves the
    check without effect in that unreachable case. *)
Definition CheckInputsInteraction (tx : CTransaction) (state : CValidationState)
    : bool * CValidationState :=
  if IsCoinBase tx then
    if (0 <? length (GetVjoinsplit tx))%nat then
      DoS 100 (error "CheckInputsInteraction(): coinbase has joinsplits")
          REJECT_INVALID "bad-cb-has-joinsplits" state
    else
      match GetVin tx !! 0%nat with
      | Some txin0 =>
          if (length (scriptSig txin0) <? 2)%nat
             || (100 <? length (scriptSig txin0))%nat then
            DoS 100 (error "CheckInputsInteraction(): coinbase script size")
                REJECT_INVALID "bad-cb-length" state
          else (true, state)
      | None => (true, state)
      end
  else CheckInputsInteraction_vin (GetVin tx) state.

(** Modelled from the spec: [GetValueCcOut] is a template of
    [primitives/transaction.h], which is not part of the sources at hand.  The
    spec: the sum of the crosschain outputs, each step range-checked, failing
    with an overflow condition if any partial sum exceeds [MAX_MONEY]. *)
Fixpoint GetValueCcOut_loop {T : Type} `{CrosschainOut T} (ccout : list T)
    (nValueOut : CAmount) : option CAmount :=
  match ccout with
  | [] => Some nValueOut
  | it :: rest =>
      let nValueOut := add64 nValueOut (cc_nValue (as_crosschain it)) in
      if negb (MoneyRange (cc_nValue (as_crosschain it)))
         || negb (MoneyRange nValueOut) then None
      else GetValueCcOut_loop rest nValueOut
  end.

Definition GetValueCcOut {T : Type} `{CrosschainOut T} (ccout : list T)
    : option CAmount :=
  GetValueCcOut_loop ccout 0.

(** [CTransaction::GetValueOut], the loop over the joinsplits. *)
Fixpoint GetValueOut_joinsplit (vjs : list JSDescription) (nValueOut : CAmount)
    : option CAmount :=
  match vjs with
  | [] => Some nValueOut
  | it :: rest =>
      let nValueOut := add64 nValueOut (vpub_old it) in
      if negb (MoneyRange (vpub_old it)) || negb (MoneyRange nValueOut) then None
      else GetValueOut_joinsplit rest nValueOut
  end.

(** [CTransaction::GetValueOut].  The crosschain total is added without a
    range check of the result. *)
Definition GetValueOut (tx : CTransaction) : option CAmount :=
  nValueOut ← CTransactionBase_GetValueOut tx;
  nValueOut ← GetValueOut_joinsplit (vjoinsplit tx) nValueOut;
  sc ← GetValueCcOut (vsc_ccout tx);
  cl ← GetValueCcOut (vcl_ccout tx);
  ft ← GetValueCcOut (vft_ccout tx);
  Some (add64 nValueOut (add64 (add64 sc cl) ft)).

(** [CTransaction::GetJoinSplitValueIn]. *)
Fixpoint GetJoinSplitValueIn_loop (vjs : list JSDescription) (nValue : CAmount)
    : option CAmount :=
  match vjs with
  | [] => Some nValue
  | it :: rest =>
      let nValue := add64 nValue (vpub_new it) in
      if negb (MoneyRange (vpub_new it)) || negb (MoneyRange nValue) then None
      else GetJoinSplitValueIn_loop rest nValue
  end.

Definition GetJoinSplitValueIn (tx : CTransaction) : option CAmount :=
  GetJoinSplitValueIn_loop (vjoinsplit tx) 0.

(** The coin view, as [GetValueIn] uses it: [view.GetOutputFor(txin)] either
    resolves the input to the output it spends or fails.  The list next to
    the result of [GetValueIn] names the inputs the view was asked for, in
    order. *)
Definition CCoinsViewCache : Type := CTxIn -> option CTxOut.

Fixpoint GetValueIn_vin (view : CCoinsViewCache) (vin : list CTxIn)
    (nResult : CAmount) (asked : list CTxIn) : option CAmount * list CTxIn :=
  match vin with
  | [] => (Some nResult, asked)
  | ctxin :: rest =>
      match view ctxin with
      | Some txout =>
          GetValueIn_vin view rest (add64 nResult (nValue txout)) (asked ++ [ctxin])
      | None => (None, asked ++ [ctxin])
      end
  end.

(** [CTransaction::GetValueIn] (the build of the node, without
    [BITCOIN_TX]). *)
Definition GetValueIn (tx : CTransaction) (view : CCoinsViewCache)
    : option CAmount * list CTxIn :=
  if IsCoinBase tx then (Some 0, [])
  else
    match GetValueIn_vin view (vin tx) 0 [] with
    | (Some nResult, asked) =>
        (js ← GetJoinSplitValueIn tx; Some (add64 nResult js), asked)
    | (None, asked) => (None, asked)
    end.

End Transaction.

(** ** The shuffle of joinsplit inputs and outputs *)

Definition ZC_NUM_JS_INPUTS : nat := 2.
Definition ZC_NUM_JS_OUTPUTS : nat := 2.

(** [std::swap(first[i], first[r])] on an array embedded as a list. *)
Definition swap {A : Type} (first : list A) (i r : nat) : list A :=
  match first !! i, first !! r with
  | Some x, Some y => <[r := x]> (<[i := y]> first)
  | _, _ => first
  end.

Section Shuffle.

(** The permutation generator is a [std::function<int(int)>]; it may keep
    state between calls (a random source does), which [G] stands for. *)
Variable G : Type.
Variable gen : Z -> G -> Z * G.

(** Modelled from the spec: [MappedShuffle] is a template of [random.h],
    which is not part of the sources at hand.  The spec: given an array and a
    caller-supplied permutation generator, it shuffles the array while
    recording the permutation actually applied.  The model walks the array
    from its last position down to the second, asks the generator for a
    position [r] no larger than the current one, and exchanges the two
    positions in the array and in the map alike; an answer out of range stops
    the program ([None]). *)
Fixpoint MappedShuffle_loop {A : Type} (i : nat) (first : list A)
    (mapFirst : list N) (g : G) : option (list A * list N * G) :=
  match i with
  | O => Some (first, mapFirst, g)
  | S i' =>
      let (r, g) := gen (Z.of_nat i + 1) g in
      if (0 <=? r) && (r <=? Z.of_nat i) then
        MappedShuffle_loop i' (swap first i (Z.to_nat r))
          (swap mapFirst i (Z.to_nat r)) g
      else None
  end.

Definition MappedShuffle {A : Type} (first : list A) (mapFirst : list N)
    (len : nat) (g : G) : option (list A * list N * G) :=
  MappedShuffle_loop (len - 1) first mapFirst g.

(** The notes a joinsplit spends and creates, and the prover behind the
    constructor of [JSDescription], are outside the sources at hand. *)
Variables JSInput JSOutput : Type.
Variable prove :
  bool -> uint256 -> uint256 -> list JSInput -> list JSOutput ->
  CAmount -> CAmount -> bool -> JSDescription.

(** What [JSDescription::Randomized] leaves behind: the description it
    returns and the four arrays it received by reference. *)
Record Randomized_result : Type := mkRandomized {
  r_js : JSDescription;
  r_inputs : list JSInput;
  r_outputs : list JSOutput;
  r_inputMap : list N;
  r_outputMap : list N;
  r_gen : G
}.

(** [JSDescription::Randomized].  The generator handed over is a function
    that can be called, which is what [assert(gen)] asks for. *)
Definition Randomized (makeGrothProof : bool) (joinSplitPubKey anchor : uint256)
    (inputs : list JSInput) (outputs : list JSOutput)
    (vpub_old vpub_new : CAmount) (computeProof : bool) (g : G)
    : option Randomized_result :=
  let inputMap := [0%N; 1%N] in
  let outputMap := [0%N; 1%N] in
  '(inputs, inputMap, g) ← MappedShuffle inputs inputMap ZC_NUM_JS_INPUTS g;
  '(outputs, outputMap, g) ← MappedShuffle outputs outputMap ZC_NUM_JS_OUTPUTS g;
  Some (mkRandomized
          (prove makeGrothProof joinSplitPubKey anchor inputs outputs
             vpub_old vpub_new computeProof)
          inputs outputs inputMap outputMap g).

End Shuffle.

Arguments MappedShuffle_loop {G} gen {A} i first mapFirst g.
Arguments MappedShuffle {G} gen {A} first mapFirst len g.
Arguments Randomized {G} gen {JSInput JSOutput} prove makeGrothProof
  joinSplitPubKey anchor inputs outputs vpub_old vpub_new computeProof g.
Arguments r_js {G JSInput JSOutput} r.
Arguments r_inputs {G JSInput JSOutput} r.
Arguments r_outputs {G JSInput JSOutput} r.
Arguments r_inputMap {G JSInput JSOutput} r.
Arguments r_outputMap {G JSInput JSOutput} r.
Arguments r_gen {G JSInput JSOutput} r.

(** The first position of a map that records [k], if there is one. *)
Definition position_of (k : N) (map : list N) : option nat :=
  fst <$> list_find (fun x => x = k) map.

(** Applying a recorded permutation to a shuffled array: position [k] of the
    result takes the element found in the shuffled array at the position [i]
    with [map[i] = k].  There is a result only for a map that is a
    permutation of the positions of the array. *)
Definition unshuffle {A : Type} (shuffled : list A) (map : list N)
    : option (list A) :=
  let positions := N.of_nat <$> seq 0 (length shuffled) in
  if decide (map ≡ₚ positions) then
    mapM (fun k => i ← position_of k map; shuffled !! i) positions
  else None.

(** ** The size a record counts for in its priority *)

(** A [size_t] read as [unsigned int]. *)
Definition to_uint (z : Z) : Z := z mod 2 ^ 32.

Section ModifiedSize.

(** [CalculateSize] serializes the record; serialization is outside the
    sources at hand. *)
Variable CalculateSize : CTransaction -> Z.

(** [CTransaction::CalculateModifiedSize], the loop over the inputs. *)
Fixpoint CalculateModifiedSize_loop (vin : list CTxIn) (nTxSize : Z) : Z :=
  match vin with
  | [] => nTxSize
  | it :: rest =>
      let offset :=
        41 + Z.min 110 (to_uint (Z.of_nat (length (scriptSig it)))) in
      let nTxSize := if offset <? nTxSize then nTxSize - offset else nTxSize in
      CalculateModifiedSize_loop rest nTxSize
  end.

(** [CTransaction::CalculateModifiedSize]. *)
Definition CalculateModifiedSize (tx : CTransaction) (nTxSize : Z) : Z :=
  let nTxSize := if nTxSize =? 0 then CalculateSize tx else nTxSize in
  CalculateModifiedSize_loop (vin tx) nTxSize.

End ModifiedSize.

(** ** Outputs of backward transfers *)

Record CBackwardTransferOut : Type := mkBackwardTransferOut {
  bt_nValue : CAmount;
  pubKeyHash : list Byte.byte
}.

#[export] Instance byte_eq_dec : EqDecision Byte.byte := Byte.byte_eq_dec.

(** [std::find(first, last, value)]: the range from the first element equal
    to [value] on, or [None] for [last]. *)
Fixpoint find_byte (value : Byte.byte) (script : list Byte.byte)
    : option (list Byte.byte) :=
  match script with
  | [] => None
  | b :: rest => if decide (b = value) then Some script else find_byte value rest
  end.

(** [sizeof(uint160)]. *)
Definition sizeof_uint160 : nat := 20.

(** How a constructor that guards its reads by [assert] ends: with its
    object, on a failed assertion, or having read past the end of a vector,
    where the behaviour of the program is undefined. *)
Inductive constructed (A : Type) : Type :=
  | Built (a : A)
  | AssertionFailed
  | PastTheEnd.
Arguments Built {A} a.
Arguments AssertionFailed {A}.
Arguments PastTheEnd {A}.

Section BackwardTransfer.

(** The opcodes are constants of [script/script.h], and the operator that
    pushes a vector onto a script is defined there; both are outside the
    sources at hand.  [push_data v] stands for the bytes the operator appends
    for [v]. *)
Variables OP_DUP OP_HASH160 OP_EQUALVERIFY OP_CHECKSIG : Byte.byte.
Variable push_data : list Byte.byte -> list Byte.byte.

(** [CBackwardTransferOut::CBackwardTransferOut(const CTxOut&)].  The
    source makes two tests, both by [assert]: that [OP_HASH160] is found, and
    that the byte after it is 20.  It does not test that there is a byte
    after [OP_HASH160], nor that twenty bytes follow the length byte: there it
    reads past the end of the script. *)
Definition CBackwardTransferOut_of_CTxOut (txout : CTxOut)
    : constructed CBackwardTransferOut :=
  match find_byte OP_HASH160 (scriptPubKey txout) with
  | None => AssertionFailed
  | Some it =>
      match drop 1 it with
      | [] => PastTheEnd
      | len :: data =>
          if decide (Z.of_N (Byte.to_N len) = Z.of_nat sizeof_uint160) then
            if (length data <? sizeof_uint160)%nat then PastTheEnd
            else Built (mkBackwardTransferOut (nValue txout)
                          (take sizeof_uint160 data))
          else AssertionFailed
      end
  end.

(** [CTxOut::CTxOut(const CBackwardTransferOut&)]. *)
Definition CTxOut_of_CBackwardTransferOut (btout : CBackwardTransferOut)
    : CTxOut :=
  let pkh := pubKeyHash btout in
  mkTxOut (bt_nValue btout)
    ([OP_DUP; OP_HASH160] ++ push_data pkh ++ [OP_EQUALVERIFY; OP_CHECKSIG])
    true.

End BackwardTransfer.

(** ** The wallet: [src/wallet/wallet.h] *)

(** *** Note outpoints *)

Record JSOutPoint : Type := mkJSOutPoint {
  jsop_hash : uint256;
  jsop_js : N;
  jsop_n : N
}.

(** [operator<] on [JSOutPoint], the order of the keys of [mapNoteData_t].
    The order of [uint256] is a total order of its values; it is embedded as
    the order of [N]. *)
Definition JSOutPoint_lt (a b : JSOutPoint) : bool :=
  ((jsop_hash a <? jsop_hash b)
   || ((jsop_hash a =? jsop_hash b) && (jsop_js a <? jsop_js b))
   || ((jsop_hash a =? jsop_hash b) && (jsop_js a =? jsop_js b)
       && (jsop_n a <? jsop_n b)))%N.

(** [operator==] and [operator!=] on [JSOutPoint]. *)
Definition JSOutPoint_eq (a b : JSOutPoint) : bool :=
  ((jsop_hash a =? jsop_hash b) && (jsop_js a =? jsop_js b)
   && (jsop_n a =? jsop_n b))%N.

Definition JSOutPoint_ne (a b : JSOutPoint) : bool := negb (JSOutPoint_eq a b).

(** *** The position of an entry in the ordered list of transactions *)

Section OrderPos.

(** [atoi64] and [i64tostr] are declared in [utilstrencodings.h], outside
    the sources at hand. *)
Variable atoi64 : string -> Z.
Variable i64tostr : Z -> string.

(** [ReadOrderPos]: the value left in [nOrderPos]. *)
Definition ReadOrderPos (mapValue : gmap string string) : Z :=
  match mapValue !! "n" with
  | None => -1
  | Some s => atoi64 s
  end.

(** [WriteOrderPos]: the map afterwards. *)
Definition WriteOrderPos (nOrderPos : Z) (mapValue : gmap string string)
    : gmap string string :=
  if nOrderPos =? -1 then mapValue
  else <["n" := i64tostr nOrderPos]> mapValue.

End OrderPos.

(** *** Request counts *)

(** Reduction of an integer to the range of [int]. *)
Definition wrap32 (z : Z) : Z := (z + 2 ^ 31) mod 2 ^ 32 - 2 ^ 31.

(** [CWallet::Inventory]: [mapRequestCount] afterwards. *)
Definition Inventory (hash : uint256) (mapRequestCount : gmap uint256 Z)
    : gmap uint256 Z :=
  match mapRequestCount !! hash with
  | Some count => <[hash := wrap32 (count + 1)]> mapRequestCount
  | None => mapRequestCount
  end.

(** *** Wallet versions *)

Inductive WalletFeature : Type :=
  | FEATURE_BASE
  | FEATURE_WALLETCRYPT
  | FEATURE_COMPRPUBKEY.

Definition FEATURE_LATEST : WalletFeature := FEATURE_COMPRPUBKEY.

Definition WalletFeature_value (wf : WalletFeature) : Z :=
  match wf with
  | FEATURE_BASE => 10500
  | FEATURE_WALLETCRYPT => 40000
  | FEATURE_COMPRPUBKEY => 60000
  end.

(** The two version fields of [CWallet]. *)
Record WalletVersions : Type := mkWalletVersions {
  nWalletVersion : Z;
  nWalletMaxVersion : Z
}.

(** The part of [CWallet::SetNull] on the version fields. *)
Definition SetNull_versions : WalletVersions :=
  mkWalletVersions (WalletFeature_value FEATURE_BASE)
    (WalletFeature_value FEATURE_BASE).

(** [CWallet::LoadMinVersion]. *)
Definition LoadMinVersion (nVersion : Z) (w : WalletVersions)
    : bool * WalletVersions :=
  (true, mkWalletVersions nVersion (Z.max (nWalletMaxVersion w) nVersion)).

(** [CWallet::CanSupportFeature]. *)
Definition CanSupportFeature (wf : WalletFeature) (w : WalletVersions) : bool :=
  nWalletMaxVersion w >=? WalletFeature_value wf.

(** [CWallet::GetVersion]. *)
Definition GetVersion (w : WalletVersions) : Z := nWalletVersion w.

(** *** The atomic write of the best chain *)

(** The calls [SetBestChainINTERNAL] makes on the wallet database it is
    given. *)
Inductive db_call (W L : Type) : Type :=
  | TxnBegin
  | WriteTx (hash : uint256) (wtx : W)
  | WriteWitnessCacheSize (nWitnessCacheSize : Z)
  | WriteBestBlock (loc : L)
  | TxnAbort
  | TxnCommit.
Arguments TxnBegin {W L}.
Arguments WriteTx {W L} hash wtx.
Arguments WriteWitnessCacheSize {W L} nWitnessCacheSize.
Arguments WriteBestBlock {W L} loc.
Arguments TxnAbort {W L}.
Arguments TxnCommit {W L}.

(** An exception, by what the handler of [SetBestChainINTERNAL] makes of
    it: a [std::exception], which [catch (const std::exception&)] takes, or
    anything else, which passes it by. *)
Inductive exception : Type := StdException | OtherException.

(** What a call answered: [true], [false], or an exception. *)
Inductive db_answer : Type := Yes | No | Threw (e : exception).

(** The database, a template parameter of the source: every call on it
    answers [true] or [false], or throws. *)
Record WalletDB (D W L : Type) : Type := mkWalletDB {
  db_TxnBegin : D -> db_answer * D;
  db_WriteTx : uint256 -> W -> D -> db_answer * D;
  db_WriteWitnessCacheSize : Z -> D -> db_answer * D;
  db_WriteBestBlock : L -> D -> db_answer * D;
  db_TxnAbort : D -> db_answer * D;
  db_TxnCommit : D -> db_answer * D
}.
Arguments db_TxnBegin {D W L} w s.
Arguments db_WriteTx {D W L} w hash wtx s.
Arguments db_WriteWitnessCacheSize {D W L} w n s.
Arguments db_WriteBestBlock {D W L} w loc s.
Arguments db_TxnAbort {D W L} w s.
Arguments db_TxnCommit {D W L} w s.

(** How a run of statements ends: at its end, by [return], or by an
    exception that leaves it. *)
Inductive control : Type := Completed | Returned | Thrown (e : exception).

Section SetBestChain.

Context {D W L : Type}.
Variable walletdb : WalletDB D W L.

(** The database and the calls made on it so far, each with its answer. *)
Definition db_log : Type := D * list (db_call W L * db_answer).

(** A call on the database: its answer, and the log with the call entered. *)
Definition db_do (c : db_call W L) (st : db_log) : db_answer * db_log :=
  let (r, s) :=
    match c with
    | TxnBegin => db_TxnBegin walletdb (fst st)
    | WriteTx hash wtx => db_WriteTx walletdb hash wtx (fst st)
    | WriteWitnessCacheSize n => db_WriteWitnessCacheSize walletdb n (fst st)
    | WriteBestBlock loc => db_WriteBestBlock walletdb loc (fst st)
    | TxnAbort => db_TxnAbort walletdb (fst st)
    | TxnCommit => db_TxnCommit walletdb (fst st)
    end in
  (r, (s, snd st ++ [(c, r)])).

(** [walletdb.TxnAbort(); return;]: what [TxnAbort] returns is not looked at,
    what it throws goes on. *)
Definition abort_and_return (st : db_log) : control * db_log :=
  let (r, st) := db_do TxnAbort st in
  match r with
  | Yes => (Returned, st)
  | No => (Returned, st)
  | Threw e => (Thrown e, st)
  end.

(** [if (!walletdb.Write...(...)) { walletdb.TxnAbort(); return; }] *)
Definition write_or_abort (c : db_call W L) (st : db_log) : control * db_log :=
  let (r, st) := db_do c st in
  match r with
  | Yes => (Completed, st)
  | No => abort_and_return st
  | Threw e => (Thrown e, st)
  end.

(** The loop over [mapWallet], whose entries come in the order of the map. *)
Fixpoint SetBestChain_txs (mapWallet : list (uint256 * W)) (st : db_log)
    : control * db_log :=
  match mapWallet with
  | [] => (Completed, st)
  | wtxItem :: rest =>
      match write_or_abort (WriteTx (fst wtxItem) (snd wtxItem)) st with
      | (Completed, st) => SetBestChain_txs rest st
      | stop => stop
      end
  end.

(** The block under [try]. *)
Definition SetBestChain_try (mapWallet : list (uint256 * W))
    (nWitnessCacheSize : Z) (loc : L) (st : db_log) : control * db_log :=
  match SetBestChain_txs mapWallet st with
  | (Completed, st) =>
      match write_or_abort (WriteWitnessCacheSize nWitnessCacheSize) st with
      | (Completed, st) => write_or_abort (WriteBestBlock loc) st
      | stop => stop
      end
  | stop => stop
  end.

(** [CWallet::SetBestChainINTERNAL]: how it ends ([Returned], or [Thrown] with
    the exception that leaves it), the database afterwards and the calls made
    on it.  The handler takes a [std::exception] thrown anywhere under [try],
    by a write or by the [TxnAbort] that follows a refused write; what
    [TxnBegin], the [TxnAbort] of the handler and [TxnCommit] throw is outside
    the [try] and leaves the function.  The messages written to the log are
    left out. *)
Definition SetBestChainINTERNAL (mapWallet : list (uint256 * W))
    (nWitnessCacheSize : Z) (loc : L) (s : D) : control * db_log :=
  let (r, st) := db_do TxnBegin (s, []) in
  match r with
  | Threw e => (Thrown e, st)
  | No => (Returned, st)
  | Yes =>
      match SetBestChain_try mapWallet nWitnessCacheSize loc st with
      | (Thrown StdException, st) => abort_and_return st
      | (Thrown OtherException, st) => (Thrown OtherException, st)
      | (Returned, st) => (Returned, st)
      | (Completed, st) =>
          let (r, st) := db_do TxnCommit st in
          match r with
          | Yes => (Returned, st)
          | No => (Returned, st)
          | Threw e => (Thrown e, st)
          end
      end
  end.

End SetBestChain.

(** *** Wallet transactions on disk *)

(** [mapValue[key]] on a [std::map]: the value under the key and the map
    afterwards, which has the key with an empty string if it had not. *)
Definition subscript (mapValue : gmap string string) (key : string)
    : string * gmap string string :=
  match mapValue !! key with
  | Some value => (value, mapValue)
  | None => (""%string, <[key := ""%string]> mapValue)
  end.

(** The five [mapValue.erase] that end [SerializationOp]. *)
Definition erase_reserved (mapValue : gmap string string) : gmap string string :=
  delete "timesmart"%string
    (delete "n"%string
       (delete "spent"%string
          (delete "version"%string (delete "fromaccount"%string mapValue)))).

Section WalletTxSerialization.

Variable atoi64 : string -> Z.
Variable i64tostr : Z -> string.

(** [strprintf("%u", n)], of [tinyformat.h]. *)
Variable utostr : Z -> string.

(** The [CMerkleTx] a wallet transaction derives from, the type
    [mapNoteData_t] of its note data and the wallet it points to are left
    open: [SerializationOp] hands the first two to the stream as they are and
    only stores the pointer. *)
Variables CMerkleTx mapNoteData_t CWallet : Type.

(** [CWalletTx], with the fields of [CWalletObjBase]. *)
Record CWalletTx : Type := mkWalletTx {
  wtx_merkle : CMerkleTx;
  mapNoteData : mapNoteData_t;
  pwallet : option CWallet;
  fDebitCached : bool;
  fCreditCached : bool;
  fImmatureCreditCached : bool;
  fAvailableCreditCached : bool;
  fWatchDebitCached : bool;
  fWatchCreditCached : bool;
  fImmatureWatchCreditCached : bool;
  fAvailableWatchCreditCached : bool;
  fChangeCached : bool;
  nDebitCached : CAmount;
  nCreditCached : CAmount;
  nImmatureCreditCached : CAmount;
  nAvailableCreditCached : CAmount;
  nWatchDebitCached : CAmount;
  nWatchCreditCached : CAmount;
  nImmatureWatchCreditCached : CAmount;
  nAvailableWatchCreditCached : CAmount;
  nChangeCached : CAmount;
  mapValue : gmap string string;
  vOrderForm : list (string * string);
  fTimeReceivedIsTxTime : Z;
  nTimeReceived : Z;
  nTimeSmart : Z;
  fFromMe : Z;
  strFromAccount : string;
  nOrderPos : Z
}.

(** [CWalletObjBase::Init]. *)
Definition Init (pwalletIn : option CWallet) (wtx : CWalletTx) : CWalletTx :=
  mkWalletTx (wtx_merkle wtx) (mapNoteData wtx) pwalletIn
    false false false false false false false false false
    0 0 0 0 0 0 0 0 0
    ∅ [] 0 0 0 0 ""%string (-1).

(** [CWalletObjBase::MarkDirty]. *)
Definition MarkDirty (wtx : CWalletTx) : CWalletTx :=
  mkWalletTx (wtx_merkle wtx) (mapNoteData wtx) (pwallet wtx)
    false false (fImmatureCreditCached wtx) false false false false false false
    (nDebitCached wtx) (nCreditCached wtx) (nImmatureCreditCached wtx)
    (nAvailableCreditCached wtx) (nWatchDebitCached wtx)
    (nWatchCreditCached wtx) (nImmatureWatchCreditCached wtx)
    (nAvailableWatchCreditCached wtx) (nChangeCached wtx)
    (mapValue wtx) (vOrderForm wtx) (fTimeReceivedIsTxTime wtx)
    (nTimeReceived wtx) (nTimeSmart wtx) (fFromMe wtx) (strFromAccount wtx)
    (nOrderPos wtx).

(** [CWalletObjBase::BindWallet]. *)
Definition BindWallet (pwalletIn : CWallet) (wtx : CWalletTx) : CWalletTx :=
  MarkDirty
    (mkWalletTx (wtx_merkle wtx) (mapNoteData wtx) (Some pwalletIn)
       (fDebitCached wtx) (fCreditCached wtx) (fImmatureCreditCached wtx)
       (fAvailableCreditCached wtx) (fWatchDebitCached wtx)
       (fWatchCreditCached wtx) (fImmatureWatchCreditCached wtx)
       (fAvailableWatchCreditCached wtx) (fChangeCached wtx)
       (nDebitCached wtx) (nCreditCached wtx) (nImmatureCreditCached wtx)
       (nAvailableCreditCached wtx) (nWatchDebitCached wtx)
       (nWatchCreditCached wtx) (nImmatureWatchCreditCached wtx)
       (nAvailableWatchCreditCached wtx) (nChangeCached wtx)
       (mapValue wtx) (vOrderForm wtx) (fTimeReceivedIsTxTime wtx)
       (nTimeReceived wtx) (nTimeSmart wtx) (fFromMe wtx) (strFromAccount wtx)
       (nOrderPos wtx)).

(** The fields of the object that [SerializationOp] assigns besides the
    caches. *)
Definition with_persistent (wtx : CWalletTx) (merkle : CMerkleTx)
    (noteData : mapNoteData_t) (values : gmap string string)
    (orderForm : list (string * string)) (timeReceivedIsTxTime timeReceived
    timeSmart fromMe : Z) (fromAccount : string) (orderPos : Z) : CWalletTx :=
  mkWalletTx merkle noteData (pwallet wtx)
    (fDebitCached wtx) (fCreditCached wtx) (fImmatureCreditCached wtx)
    (fAvailableCreditCached wtx) (fWatchDebitCached wtx)
    (fWatchCreditCached wtx) (fImmatureWatchCreditCached wtx)
    (fAvailableWatchCreditCached wtx) (fChangeCached wtx)
    (nDebitCached wtx) (nCreditCached wtx) (nImmatureCreditCached wtx)
    (nAvailableCreditCached wtx) (nWatchDebitCached wtx)
    (nWatchCreditCached wtx) (nImmatureWatchCreditCached wtx)
    (nAvailableWatchCreditCached wtx) (nChangeCached wtx)
    values orderForm timeReceivedIsTxTime timeReceived timeSmart fromMe
    fromAccount orderPos.

(** What [SerializationOp] passes through [READWRITE], in order. *)
Record CWalletTx_stream : Type := mkWalletTxStream {
  s_merkle : CMerkleTx;
  s_vUnused : list CMerkleTx;
  s_mapValue : gmap string string;
  s_mapNoteData : mapNoteData_t;
  s_vOrderForm : list (string * string);
  s_fTimeReceivedIsTxTime : Z;
  s_nTimeReceived : Z;
  s_fFromMe : Z;
  s_fSpent : Z
}.

(** [CWalletTx::SerializationOp] when writing: what goes to the stream, and
    the object afterwards. *)
Definition CWalletTx_Serialize (wtx : CWalletTx) : CWalletTx_stream * CWalletTx :=
  let fSpent := 0 in
  let values := <["fromaccount"%string := strFromAccount wtx]> (mapValue wtx) in
  let values := WriteOrderPos i64tostr (nOrderPos wtx) values in
  let values :=
    if nTimeSmart wtx =? 0 then values
    else <["timesmart"%string := utostr (nTimeSmart wtx)]> values in
  let stream :=
    mkWalletTxStream (wtx_merkle wtx) [] values (mapNoteData wtx)
      (vOrderForm wtx) (fTimeReceivedIsTxTime wtx) (nTimeReceived wtx)
      (fFromMe wtx) fSpent in
  (stream,
   with_persistent wtx (wtx_merkle wtx) (mapNoteData wtx)
     (erase_reserved values) (vOrderForm wtx) (fTimeReceivedIsTxTime wtx)
     (nTimeReceived wtx) (nTimeSmart wtx) (fFromMe wtx) (strFromAccount wtx)
     (nOrderPos wtx)).

(** [CWalletTx::SerializationOp] when reading: the object afterwards. *)
Definition CWalletTx_Unserialize (wtx : CWalletTx) (stream : CWalletTx_stream)
    : CWalletTx :=
  let wtx := Init None wtx in
  let values := s_mapValue stream in
  let (fromAccount, values) := subscript values "fromaccount" in
  let orderPos := ReadOrderPos atoi64 values in
  let timeSmart :=
    match values !! "timesmart"%string with
    | Some _ => to_uint (atoi64 (fst (subscript values "timesmart")))
    | None => 0
    end in
  with_persistent wtx (s_merkle stream) (s_mapNoteData stream)
    (erase_reserved values) (s_vOrderForm stream)
    (s_fTimeReceivedIsTxTime stream) (s_nTimeReceived stream) timeSmart
    (s_fFromMe stream) fromAccount orderPos.

End WalletTxSerialization.

(** ** Records without inputs *)

(** [CTransaction::CheckInputsAvailability]. *)
Definition CheckInputsAvailability (tx : CTransaction) (state : CValidationState)
    : bool * CValidationState :=
  match GetVin tx, GetVjoinsplit tx with
  | [], [] =>
      DoS 10 (error "CheckInputsAvailability(): vin empty")
          REJECT_INVALID "bad-txns-vin-empty" state
  | _, _ => (true, state)
  end.

(** ** Sums, ranges and distinct keys *)

Fixpoint sum_amounts {A : Type} (f : A -> CAmount) (l : list A) : Z :=
  match l with
  | [] => 0
  | x :: rest => f x + sum_amounts f rest
  end.

(** The total of the crosschain outputs of a record. *)
Definition cc_total (tx : CTransaction) : Z :=
  sum_amounts (fun it => cc_nValue (as_crosschain it)) (vsc_ccout tx)
  + sum_amounts (fun it => cc_nValue (as_crosschain it)) (vcl_ccout tx)
  + sum_amounts (fun it => cc_nValue (as_crosschain it)) (vft_ccout tx).

Definition in_range (MAX_MONEY : CAmount) (v : Z) : Prop := 0 <= v <= MAX_MONEY.

(** The amounts [f x] of a list all lie in [[0, MAX_MONEY]], and so does
    every running sum of them on top of [acc]: the sum after the first, after
    the first two, and so on. *)
Definition sums_in_range (MAX_MONEY : CAmount) {A : Type} (f : A -> CAmount)
    (acc : Z) (l : list A) : Prop :=
  Forall (fun x => in_range MAX_MONEY (f x)) l /\
  forall k : nat, (1 <= k <= length l)%nat ->
    in_range MAX_MONEY (acc + sum_amounts f (take k l)).

(** The same, following the list. *)
Fixpoint running_ok (MAX_MONEY : CAmount) {A : Type} (f : A -> CAmount)
    (acc : Z) (l : list A) : Prop :=
  match l with
  | [] => True
  | x :: rest =>
      in_range MAX_MONEY (f x) /\ acc + f x <= MAX_MONEY /\
      running_ok MAX_MONEY f (acc + f x) rest
  end.

(** A joinsplit is well-formed for [CheckOutputsAmount]: both public values
    lie in [[0, MAX_MONEY]] and at most one of them is non-zero. *)
Definition js_well_formed (MAX_MONEY : CAmount) (js : JSDescription) : Prop :=
  in_range MAX_MONEY (vpub_old js) /\ in_range MAX_MONEY (vpub_new js) /\
  (vpub_old js = 0 \/ vpub_new js = 0).

Definition js_ill_formed (MAX_MONEY : CAmount) (js : JSDescription) : Prop :=
  ~ in_range MAX_MONEY (vpub_old js) \/ ~ in_range MAX_MONEY (vpub_new js) \/
  (vpub_old js <> 0 /\ vpub_new js <> 0).

(** The joinsplits are well-formed and the output total, continued from
    [acc] with their [vpub_old], stays in range. *)
Definition joinsplits_pass (MAX_MONEY : CAmount) (acc : Z)
    (vjs : list JSDescription) : Prop :=
  Forall (js_well_formed MAX_MONEY) vjs /\
  forall k : nat, (1 <= k <= length vjs)%nat ->
    in_range MAX_MONEY (acc + sum_amounts vpub_old (take k vjs)).

Definition joinsplits_fail (MAX_MONEY : CAmount) (acc : Z)
    (vjs : list JSDescription) : Prop :=
  Exists (js_ill_formed MAX_MONEY) vjs \/
  exists k : nat, (1 <= k <= length vjs)%nat /\
    ~ in_range MAX_MONEY (acc + sum_amounts vpub_old (take k vjs)).

(** [joinsplits_pass], following the list. *)
Fixpoint js_running_ok (MAX_MONEY : CAmount) (acc : Z)
    (vjs : list JSDescription) : Prop :=
  match vjs with
  | [] => True
  | js :: rest =>
      js_well_formed MAX_MONEY js /\ acc + vpub_old js <= MAX_MONEY /\
      js_running_ok MAX_MONEY (acc + vpub_old js) rest
  end.

(** A sum that stops with [None] at the first amount or running sum out of
    range: the shape shared by the value queries. *)
Fixpoint checked_sum (MAX_MONEY : CAmount) {A : Type} (f : A -> CAmount)
    (l : list A) (acc : CAmount) : option CAmount :=
  match l with
  | [] => Some acc
  | x :: rest =>
      let acc := add64 acc (f x) in
      if negb (MoneyRange MAX_MONEY (f x)) || negb (MoneyRange MAX_MONEY acc)
      then None
      else checked_sum MAX_MONEY f rest acc
  end.

(** The rejection a failed check leaves in the validation state. *)
Definition rejected (level : Z) (reason : string) (state : CValidationState)
    : bool * CValidationState :=
  (false, state ++ [mkRejection REJECT_INVALID reason level]).

(** The keys of a list are pairwise distinct and none of them is in the set
    built so far. *)
Definition fresh {K : Type} `{Countable K} (seen : gset K) (l : list K) : Prop :=
  NoDup l /\ Forall (fun x => x ∉ seen) l.

(** The prior outputs the inputs of a record reference, and the nullifiers of
    all its joinsplits taken together, in order. *)
Definition prevouts (tx : CTransaction) : list COutPoint :=
  prevout <$> GetVin tx.

Definition all_nullifiers (vjs : list JSDescription) : list uint256 :=
  concat (nullifiers_list <$> vjs).

(** The amounts a view resolves the inputs to, summed. *)
Definition resolved_total (view : CCoinsViewCache) (vin : list CTxIn) : Z :=
  sum_amounts (fun txin => from_option nValue 0 (view txin)) vin.

(** The array [first] holds, at each position, the element of [orig] whose
    position the map records there, and every position of [orig] is
    recorded somewhere in the map. *)
Definition mapped {A : Type} (orig first : list A) (mapFirst : list N) : Prop :=
  length first = length orig /\
  length mapFirst = length orig /\
  (forall i x, first !! i = Some x ->
     exists k, mapFirst !! i = Some k /\ orig !! N.to_nat k = Some x) /\
  (forall k, (k < length orig)%nat ->
     exists i, mapFirst !! i = Some (N.of_nat k)).

(** The contract of a permutation generator: asked for a bound [n > 0], it
    answers within [[0, n)]. *)
Definition gen_in_range {G : Type} (gen : Z -> G -> Z * G) : Prop :=
  forall n g, 0 < n -> 0 <= fst (gen n g) < n.

(** ** Values for the examples *)

(** The cap of 21 million coins and the null reference of a coinbase
    input. *)
Definition MAX_MONEY_zen : CAmount := 21000000 * COIN.

Definition IsNull_zen (o : COutPoint) : bool :=
  (hash o =? 0)%N && (n o =? 4294967295)%N.

Definition ccout_of (v : CAmount) : CTxCrosschainOut :=
  mkCrosschainOut v 0%N 0%N.

Definition js_of (old new : CAmount) : JSDescription :=
  mkJSDescription old new 0%N (0%N, 1%N).

Definition out_of (v : CAmount) : CTxOut := mkTxOut v [] false.

(** A record with the given inputs, transparent outputs and joinsplits, and no
    crosschain output. *)
Definition tx_of (ins : list CTxIn) (outs : list CTxOut)
    (jss : list JSDescription) : CTransaction :=
  mkTransaction 1 ins outs [] [] [] 0%N jss 0%N.

(** A record whose only content is a forward transfer of one coin. *)
Definition tx_forward : CTransaction :=
  mkTransaction (-4) [] [] [] [] [mkForwardTransferOut (ccout_of COIN)]
    0%N [] 0%N.

(** A coinbase input with a script of the given length, and coinbase records
    for the examples. *)
Definition coinbase_in (len : nat) : CTxIn :=
  mkTxIn (mkOutPoint 0%N 4294967295%N) (replicate len Byte.x00) 4294967295%N.

Definition tx_coinbase : CTransaction :=
  tx_of [coinbase_in 4] [out_of (50 * COIN)] [].

Definition tx_coinbase_joinsplit : CTransaction :=
  tx_of [coinbase_in 4] [out_of (50 * COIN)] [js_of 0 5].

(** A view without any coin. *)
Definition view_empty : CCoinsViewCache := fun _ => None.

(** A generator for the examples: it answers from a list of numbers, one per
    call, reduced to the bound, and 0 when the list is used up. *)
Definition gen_list (n : Z) (g : list Z) : Z * list Z :=
  match g with
  | [] => (0, [])
  | r :: g' => (r mod n, g')
  end.

(** A stand-in for the prover in the examples, with notes that are numbers:
    it keeps the public values and derives the nullifiers from the first two
    inputs. *)
Definition prove_example (makeGrothProof : bool) (joinSplitPubKey anchor : uint256)
    (inputs : list Z) (outputs : list Z) (vpub_old vpub_new : CAmount)
    (computeProof : bool) : JSDescription :=
  mkJSDescription vpub_old vpub_new anchor
    (Z.to_N (inputs !!! 0%nat), Z.to_N (inputs !!! 1%nat)).

(** The bytes of an input that do not count for the priority. *)
Definition input_offset (txin : CTxIn) : Z :=
  41 + Z.min 110 (to_uint (Z.of_nat (length (scriptSig txin)))).

(** The push of a vector shorter than 76 bytes: its length, then its
    bytes. *)
Definition push_direct (v : list Byte.byte) : list Byte.byte :=
  default Byte.x00 (Byte.of_N (N.of_nat (length v))) :: v.

(** An input that spends the given prior output with a script of the given
    length. *)
Definition spend_in (h : uint256) (i : N) (len : nat) : CTxIn :=
  mkTxIn (mkOutPoint h i) (replicate len Byte.x00) 4294967295%N.

(** A record with an input, two transparent outputs, two joinsplits (one
    taking seven coins into the shielded pool, one taking eight out of it)
    and crosschain outputs of the three kinds. *)
Definition tx_mixed : CTransaction :=
  mkTransaction (-4) [spend_in 7%N 0%N 107]
    [out_of (2 * COIN); out_of (3 * COIN)]
    [mkScCreationOut (ccout_of (4 * COIN)) 10 []]
    [mkCertifierLockOut (ccout_of (5 * COIN)) 1]
    [mkForwardTransferOut (ccout_of COIN);
     mkForwardTransferOut (ccout_of (6 * COIN))]
    0%N [js_of (7 * COIN) 0; js_of 0 (8 * COIN)] 0%N.

(** A view that knows one coin. *)
Definition view_one (h : uint256) (i : N) (v : CAmount) : CCoinsViewCache :=
  fun txin =>
    if decide (prevout txin = mkOutPoint h i) then Some (out_of v) else None.

(** The opcodes of a pay-to-pubkey-hash script, and a key hash, for the
    examples. *)
Definition OP_DUP_zen : Byte.byte := Byte.x76.
Definition OP_HASH160_zen : Byte.byte := Byte.xa9.
Definition OP_EQUALVERIFY_zen : Byte.byte := Byte.x88.
Definition OP_CHECKSIG_zen : Byte.byte := Byte.xac.

Definition btout_example : CBackwardTransferOut :=
  mkBackwardTransferOut (3 * COIN) (replicate 20 Byte.xa9).

(** The versions of a wallet after [SetNull] and a series of
    [LoadMinVersion]. *)
Definition load_versions (vs : list Z) : WalletVersions :=
  foldl (fun w v => snd (LoadMinVersion v w)) SetNull_versions vs.

(** The writes [SetBestChainINTERNAL] has to make, in order. *)
Definition best_chain_writes {W L : Type} (mapWallet : list (uint256 * W))
    (nWitnessCacheSize : Z) (loc : L) : list (db_call W L) :=
  map (fun wtxItem => WriteTx (fst wtxItem) (snd wtxItem)) mapWallet
  ++ [WriteWitnessCacheSize nWitnessCacheSize; WriteBestBlock loc].

(** How a function ends after a call whose value it does not act on: it
    returns, unless the call threw. *)
Definition ending_of (r : db_answer) : control :=
  match r with
  | Threw e => Thrown e
  | _ => Returned
  end.

(** A series of writes, each followed by [TxnAbort] and [return] if it
    answers [false]. *)
Fixpoint run_writes {D W L : Type} (walletdb : WalletDB D W L)
    (cs : list (db_call W L)) (st : D * list (db_call W L * db_answer))
    : control * (D * list (db_call W L * db_answer)) :=
  match cs with
  | [] => (Completed, st)
  | c :: rest =>
      match write_or_abort walletdb c st with
      | (Completed, st) => run_writes walletdb rest st
      | stop => stop
      end
  end.

(** A database for the examples: its state is the list of the answers it
    will give, one for each call whatever the call; when the list is used up
    it answers [true]. *)
Definition db_scripted : WalletDB (list db_answer) unit unit :=
  let answer (s : list db_answer) :=
    match s with
    | [] => (Yes, [])
    | r :: s => (r, s)
    end in
  mkWalletDB (list db_answer) unit unit
    answer (fun _ _ => answer) (fun _ => answer) (fun _ => answer)
    answer answer.

(** The keys of [mapValue] that [SerializationOp] keeps for itself. *)
Definition reserved_keys : list string :=
  ["fromaccount"; "version"; "spent"; "n"; "timesmart"]%string.

(** Decimal numbers for the examples: [atoi64_example] reads an optional
    minus sign and the digits that follow. *)
Fixpoint read_digits (s : string) (acc : Z) : Z :=
  match s with
  | EmptyString => acc
  | String c rest =>
      let d := Z.of_nat (Ascii.nat_of_ascii c) - 48 in
      if (0 <=? d) && (d <=? 9) then read_digits rest (10 * acc + d) else acc
  end.

Definition atoi64_example (s : string) : Z :=
  match s with
  | String "-"%char rest => - read_digits rest 0
  | _ => read_digits s 0
  end.

Definition i64tostr_example (z : Z) : string := pretty z.

(** A wallet transaction for the examples, with cached amounts. *)
Definition wtx_example : CWalletTx unit unit unit :=
  mkWalletTx unit unit unit tt tt (Some tt)
    true true true true false false false false true
    5 6 7 8 0 0 0 0 9
    {["comment" := "rent"]}%string [("Message", "hello")]%string
    1 1500000000 1500000600 1 "savings"%string 42.

(** ** Facts on 64-bit addition *)

Lemma wrap64_id (z : Z) : int64 z -> wrap64 z = z.
Proof.
  unfold int64, INT64_MIN, INT64_MAX, wrap64. intros Hz.
  rewrite Z.mod_small; lia.
Qed.

Lemma wrap64_high (z : Z) :
  INT64_MAX < z <= 2 * INT64_MAX + 1 -> wrap64 z = z - 2 ^ 64.
Proof.
  unfold INT64_MAX, wrap64. intros Hz.
  replace (z + 2 ^ 63) with ((z - 2 ^ 63) + 1 * 2 ^ 64) by lia.
  rewrite Z.mod_add by lia. rewrite Z.mod_small; lia.
Qed.

Section Facts.

Variable MAX_MONEY : CAmount.
Hypothesis MAX_MONEY_int64 : MAX_MONEY <= INT64_MAX.

Lemma MoneyRange_spec (v : CAmount) : MoneyRange MAX_MONEY v = true <-> 0 <= v <= MAX_MONEY.
Proof. unfold MoneyRange. rewrite andb_true_iff. lia. Qed.

(** Adding an amount of the range to an accumulator that is any 64-bit
    value: the 64-bit sum is in the range exactly when the sum of the
    integers is, and then the two agree; in no case is the accumulator left
    as it was. *)
Lemma add64_int64_in_range (cum v : CAmount) :
  int64 cum -> 0 <= v <= MAX_MONEY ->
  (MoneyRange MAX_MONEY (add64 cum v) = true <-> 0 <= cum + v <= MAX_MONEY) /\
  (MoneyRange MAX_MONEY (add64 cum v) = true -> add64 cum v = cum + v) /\
  (cum + v <= INT64_MAX -> add64 cum v = cum + v) /\
  (0 < v -> add64 cum v <> cum).
Proof.
  intros Hcum Hv. unfold add64.
  destruct (Z_le_gt_dec (cum + v) INT64_MAX) as [Hle | Hgt].
  - rewrite wrap64_id by (unfold int64, INT64_MIN, INT64_MAX in *; lia).
    rewrite MoneyRange_spec. repeat split; lia.
  - rewrite wrap64_high by (unfold int64, INT64_MIN, INT64_MAX in *; lia).
    rewrite MoneyRange_spec. unfold int64, INT64_MIN, INT64_MAX in *.
    repeat split; lia.
Qed.

(** *** Running sums *)

Lemma running_ok_sums {A : Type} (f : A -> CAmount) (l : list A) :
  forall acc, 0 <= acc ->
    running_ok MAX_MONEY f acc l <-> sums_in_range MAX_MONEY f acc l.
Proof.
  unfold sums_in_range, in_range.
  induction l as [| x l IH]; intros acc Hacc; simpl.
  - split; [intros _ | done]. split; [constructor | intros k Hk; simpl in Hk; lia].
  - split.
    + intros (Hx & Hsum & Hrest). unfold in_range in Hx.
      apply IH in Hrest; [| lia].
      destruct Hrest as [Hall Hpre]. split; [by constructor |].
      intros [| k] Hk; [lia |]. simpl.
      destruct k as [| k]; [rewrite take_0; simpl; lia |].
      specialize (Hpre (S k)). simpl in Hk. lia.
    + intros [Hall Hpre]. inversion Hall as [| ? ? Hx Hall']; subst.
      assert (Hone := Hpre 1%nat). simpl in Hone.
      rewrite ?take_0 in Hone. simpl in Hone. unfold in_range in Hx.
      split; [done |]. split; [lia |].
      apply IH; [lia |]. split; [done |].
      intros k Hk. specialize (Hpre (S k)). simpl in Hpre. lia.
Qed.

Lemma running_ok_total {A : Type} (f : A -> CAmount) (l : list A) :
  forall acc, 0 <= acc -> running_ok MAX_MONEY f acc l ->
    0 <= sum_amounts f l /\ (l <> [] -> acc + sum_amounts f l <= MAX_MONEY).
Proof.
  induction l as [| x l IH]; intros acc Hacc; simpl; [done |].
  intros (Hx & Hsum & Hrest). unfold in_range in Hx.
  destruct (IH (acc + f x)) as [Hnn Hle]; [lia | done |].
  split; [lia |]. intros _.
  destruct l as [| y l]; [simpl; lia |].
  specialize (Hle ltac:(done)). lia.
Qed.

(** One step of a range-checked sum, as every loop of the source takes it:
    the amount is added first and both it and the new sum are then tested. *)
Lemma checked_step (acc v : CAmount) :
  0 <= acc -> int64 acc ->
  negb (MoneyRange MAX_MONEY v) || negb (MoneyRange MAX_MONEY (add64 acc v)) = false <->
  in_range MAX_MONEY v /\ acc + v <= MAX_MONEY.
Proof.
  intros Hacc Hint. unfold in_range.
  rewrite orb_false_iff, !negb_false_iff. split.
  - intros [Hv Hs]. apply MoneyRange_spec in Hv.
    destruct (add64_int64_in_range acc v Hint Hv) as (Hiff & _).
    apply Hiff in Hs. lia.
  - intros [Hv Hs]. split; [by apply MoneyRange_spec |].
    destruct (add64_int64_in_range acc v Hint Hv) as (Hiff & _).
    apply Hiff. lia.
Qed.

Lemma checked_step_sum (acc v : CAmount) :
  0 <= acc -> int64 acc -> in_range MAX_MONEY v -> acc + v <= MAX_MONEY ->
  add64 acc v = acc + v.
Proof.
  intros Hacc Hint Hv Hs.
  destruct (add64_int64_in_range acc v Hint Hv) as (Hiff & Heq & _).
  apply Heq, Hiff. unfold in_range in Hv. lia.
Qed.

Lemma in_range_int64 (v : Z) : in_range MAX_MONEY v -> int64 v.
Proof. unfold in_range, int64, INT64_MIN. lia. Qed.

Lemma checked_sum_spec {A : Type} (f : A -> CAmount) (l : list A) :
  forall acc, 0 <= acc -> int64 acc ->
    (running_ok MAX_MONEY f acc l ->
       checked_sum MAX_MONEY f l acc = Some (acc + sum_amounts f l)) /\
    (~ running_ok MAX_MONEY f acc l -> checked_sum MAX_MONEY f l acc = None).
Proof.
  induction l as [| x l IH]; intros acc Hacc Hint; simpl.
  - rewrite Z.add_0_r. split; [done | tauto].
  - destruct (negb (MoneyRange MAX_MONEY (f x)) || negb (MoneyRange MAX_MONEY (add64 acc (f x))))
      eqn:Hstep.
    + split; [| done]. intros (Hx & Hs & _).
      assert (Hf : negb (MoneyRange MAX_MONEY (f x))
                   || negb (MoneyRange MAX_MONEY (add64 acc (f x))) = false)
        by (apply checked_step; done).
      congruence.
    + apply checked_step in Hstep; [| done | done]. destruct Hstep as [Hx Hs].
      rewrite (checked_step_sum acc (f x)) by done.
      assert (Hnn : 0 <= acc + f x) by (unfold in_range in Hx; lia).
      assert (Hi : int64 (acc + f x))
        by (apply in_range_int64; unfold in_range; lia).
      destruct (IH (acc + f x) Hnn Hi) as [Hok Hbad].
      split.
      * intros (_ & _ & Hrest). rewrite (Hok Hrest). f_equal. lia.
      * intros Hnot. apply Hbad. tauto.
Qed.

Lemma running_ok_dec {A : Type} (f : A -> CAmount) (l : list A) :
  forall acc, Decision (running_ok MAX_MONEY f acc l).
Proof.
  induction l as [| x l IH]; intros acc; simpl; unfold in_range;
    [apply _ |].
  pose proof (IH (acc + f x)). apply _.
Defined.

(** *** Crosschain outputs *)

(** C4.  For every crosschain output and every starting cumulated amount,
    [CheckAmountRange] returns [true] if and only if the amount of the output
    is strictly positive and within [MoneyRange] and the cumulated amount
    after adding it is within [MoneyRange]; on a [true] return the cumulated
    amount has been increased by exactly the amount of the output. *)
Theorem CheckAmountRange_true_iff (out : CTxCrosschainOut) (cum : CAmount) :
  int64 cum ->
  (fst (CheckAmountRange MAX_MONEY out cum) = true <->
     0 < cc_nValue out /\ MoneyRange MAX_MONEY (cc_nValue out) = true /\
     MoneyRange MAX_MONEY (cum + cc_nValue out) = true) /\
  (fst (CheckAmountRange MAX_MONEY out cum) = true ->
     snd (CheckAmountRange MAX_MONEY out cum) = cum + cc_nValue out).
Proof.
  intros Hcum. unfold CheckAmountRange.
  destruct (Z.eqb_spec (cc_nValue out) 0) as [Hz | Hnz]; simpl.
  - rewrite Hz. split; [split; [done | lia] | done].
  - destruct (MoneyRange MAX_MONEY (cc_nValue out)) eqn:Hv; simpl.
    + apply MoneyRange_spec in Hv.
      destruct (add64_int64_in_range cum (cc_nValue out) Hcum Hv)
        as (Hiff & Heq & _ & _).
      destruct (MoneyRange MAX_MONEY (add64 cum (cc_nValue out))) eqn:Hsum; simpl.
      * split; [| intros _; by apply Heq].
        split; [intros _ | done].
        rewrite !MoneyRange_spec. lia.
      * split; [| done]. split; [done |].
        intros (_ & _ & Hr). apply MoneyRange_spec in Hr.
        assert (false = true) by (apply Hiff; lia). done.
    + split; [| done]. split; [done | intros (_ & ? & _); done].
Qed.

(** C10.  When [CheckAmountRange] returns [false] on an output whose amount
    is itself valid (non-zero and within [MoneyRange]), the accumulator of the
    caller holds the result of [cumulatedAmount += nValue]: it is not put
    back to its prior value, it differs from it, and it is the exact sum
    whenever that sum is a 64-bit value.  On a [false] return the accumulator
    is unchanged only when the amount is zero or out of range. *)
Theorem CheckAmountRange_false_accumulator (out : CTxCrosschainOut) (cum : CAmount) :
  int64 cum ->
  fst (CheckAmountRange MAX_MONEY out cum) = false ->
  (cc_nValue out <> 0 -> MoneyRange MAX_MONEY (cc_nValue out) = true ->
     snd (CheckAmountRange MAX_MONEY out cum) = add64 cum (cc_nValue out) /\
     MoneyRange MAX_MONEY (snd (CheckAmountRange MAX_MONEY out cum)) = false /\
     snd (CheckAmountRange MAX_MONEY out cum) <> cum /\
     (cum + cc_nValue out <= INT64_MAX ->
        snd (CheckAmountRange MAX_MONEY out cum) = cum + cc_nValue out)) /\
  (snd (CheckAmountRange MAX_MONEY out cum) = cum <->
     cc_nValue out = 0 \/ MoneyRange MAX_MONEY (cc_nValue out) = false).
Proof.
  intros Hcum. unfold CheckAmountRange.
  destruct (Z.eqb_spec (cc_nValue out) 0) as [Hz | Hnz]; simpl.
  - intros _. split; [intros Hne; by destruct Hne | split; auto].
  - destruct (MoneyRange MAX_MONEY (cc_nValue out)) eqn:Hv; simpl.
    + apply MoneyRange_spec in Hv.
      destruct (add64_int64_in_range cum (cc_nValue out) Hcum Hv)
        as (_ & _ & Hexact & Hne).
      destruct (MoneyRange MAX_MONEY (add64 cum (cc_nValue out))) eqn:Hsum; simpl;
        [done |].
      intros _. split.
      * intros _ _. repeat split; [done | apply Hne; lia | done].
      * split; [intros Heq; exfalso; apply Hne; [lia | done] |].
        intros [? | ?]; done.
    + intros _. split; [intros _ Ht; discriminate | split; auto].
Qed.

(** *** Joinsplit value entering the pool *)

Lemma CheckInputsAmount_loop_spec (vjs : list JSDescription) :
  forall acc st, 0 <= acc -> int64 acc ->
    (running_ok MAX_MONEY vpub_new acc vjs ->
       CheckInputsAmount_loop MAX_MONEY vjs acc st = (true, st)) /\
    (~ running_ok MAX_MONEY vpub_new acc vjs ->
       CheckInputsAmount_loop MAX_MONEY vjs acc st
       = rejected 100 "bad-txns-txintotal-toolarge" st).
Proof.
  induction vjs as [| js vjs IH]; intros acc st Hacc Hint; simpl.
  - split; [done | tauto].
  - destruct (negb (MoneyRange MAX_MONEY (vpub_new js))
              || negb (MoneyRange MAX_MONEY (add64 acc (vpub_new js))))
      eqn:Hstep.
    + split; [| done]. intros (Hx & Hs & _).
      assert (Hf : negb (MoneyRange MAX_MONEY (vpub_new js))
                   || negb (MoneyRange MAX_MONEY (add64 acc (vpub_new js)))
                   = false) by (apply checked_step; done).
      congruence.
    + apply checked_step in Hstep; [| done | done]. destruct Hstep as [Hx Hs].
      rewrite (checked_step_sum acc (vpub_new js)) by done.
      assert (Hnn : 0 <= acc + vpub_new js) by (unfold in_range in Hx; lia).
      assert (Hi : int64 (acc + vpub_new js))
        by (apply in_range_int64; unfold in_range; lia).
      destruct (IH (acc + vpub_new js) st Hnn Hi) as [Hok Hbad].
      split; [intros (_ & _ & Hrest); by apply Hok |].
      intros Hnot. apply Hbad. tauto.
Qed.

Lemma int64_0 : int64 0.
Proof. unfold int64, INT64_MIN, INT64_MAX. lia. Qed.

(** C8.  [CheckInputsAmount] returns [true] if and only if every
    [vpub_new] lies in [[0, MAX_MONEY]] and every running sum of the
    [vpub_new] values stays within that range; it then leaves the validation
    state as it was, and any violation is rejected with
    "bad-txns-txintotal-toolarge". *)
Theorem CheckInputsAmount_iff (tx : CTransaction) (st : CValidationState) :
  (fst (CheckInputsAmount MAX_MONEY tx st) = true <->
     sums_in_range MAX_MONEY vpub_new 0 (GetVjoinsplit tx)) /\
  (sums_in_range MAX_MONEY vpub_new 0 (GetVjoinsplit tx) ->
     CheckInputsAmount MAX_MONEY tx st = (true, st)) /\
  (~ sums_in_range MAX_MONEY vpub_new 0 (GetVjoinsplit tx) ->
     CheckInputsAmount MAX_MONEY tx st
     = rejected 100 "bad-txns-txintotal-toolarge" st).
Proof.
  unfold CheckInputsAmount.
  destruct (CheckInputsAmount_loop_spec (GetVjoinsplit tx) 0 st
              ltac:(lia) int64_0) as [Hok Hbad].
  pose proof (running_ok_sums vpub_new (GetVjoinsplit tx) 0 ltac:(lia))
    as Hsums.
  destruct (running_ok_dec vpub_new (GetVjoinsplit tx) 0) as [Hr | Hr].
  - rewrite (Hok Hr). simpl. tauto.
  - rewrite (Hbad Hr). simpl. split; [| tauto].
    split; [done | tauto].
Qed.

(** *** Transparent outputs *)

Lemma CheckOutputsAmount_vout_pass (pre rest : list CTxOut) :
  forall acc st, 0 <= acc -> int64 acc ->
    running_ok MAX_MONEY nValue acc pre ->
    CheckOutputsAmount_vout MAX_MONEY (pre ++ rest) acc st
    = CheckOutputsAmount_vout MAX_MONEY rest (acc + sum_amounts nValue pre) st.
Proof.
  induction pre as [| o pre IH]; intros acc st Hacc Hint; simpl.
  - intros _. by rewrite Z.add_0_r.
  - intros (Hx & Hs & Hrest). pose proof Hx as Hx'. unfold in_range in Hx'.
    destruct (Z.ltb_spec (nValue o) 0); [lia |].
    destruct (Z.ltb_spec MAX_MONEY (nValue o)); [lia |].
    rewrite (checked_step_sum acc (nValue o)) by done.
    assert (Hr : MoneyRange MAX_MONEY (acc + nValue o) = true)
      by (apply MoneyRange_spec; lia).
    rewrite Hr. simpl. rewrite IH; [f_equal; lia | lia | | done].
    apply in_range_int64. unfold in_range. lia.
Qed.

Lemma CheckOutputsAmount_vout_head (o : CTxOut) (post : list CTxOut)
    (acc : CAmount) (st : CValidationState) :
  0 <= acc -> int64 acc ->
  (nValue o < 0 ->
     CheckOutputsAmount_vout MAX_MONEY (o :: post) acc st
     = Return (rejected 100 "bad-txns-vout-negative" st)) /\
  (0 <= nValue o -> MAX_MONEY < nValue o ->
     CheckOutputsAmount_vout MAX_MONEY (o :: post) acc st
     = Return (rejected 100 "bad-txns-vout-toolarge" st)) /\
  (in_range MAX_MONEY (nValue o) -> MAX_MONEY < acc + nValue o ->
     CheckOutputsAmount_vout MAX_MONEY (o :: post) acc st
     = Return (rejected 100 "bad-txns-txouttotal-toolarge" st)).
Proof.
  intros Hacc Hint. simpl. unfold in_range.
  destruct (Z.ltb_spec (nValue o) 0);
    [split; [done | split; intros; lia] |].
  split; [lia |].
  destruct (Z.ltb_spec MAX_MONEY (nValue o));
    [split; [done | intros; lia] |].
  split; [lia |]. intros Hv Hs.
  destruct (add64_int64_in_range acc (nValue o) Hint Hv) as (Hiff & _).
  destruct (MoneyRange MAX_MONEY (add64 acc (nValue o))) eqn:Hr; [| done].
  assert (0 <= acc + nValue o <= MAX_MONEY) by (by apply Hiff). lia.
Qed.

(** C2.  [CheckOutputsAmount] scans the transparent outputs in order.  At the
    first output that violates a rule, all outputs before it passing, it
    returns [false] at once with the reason of that violation:
    "bad-txns-vout-negative" for a negative amount, "bad-txns-vout-toolarge"
    for an amount (not negative) above [MAX_MONEY],
    "bad-txns-txouttotal-toolarge" when the amount is in range and the
    running sum leaves the range.  Neither the outputs after it nor the
    joinsplits change this result.  If no output violates a rule, the output
    part passes: the result is that of the joinsplit part on the output
    total, and [true] when there is no joinsplit. *)
Theorem CheckOutputsAmount_first_violation (tx : CTransaction)
    (st : CValidationState) :
  (forall pre txout post, GetVout tx = pre ++ txout :: post ->
     sums_in_range MAX_MONEY nValue 0 pre ->
     (nValue txout < 0 ->
        CheckOutputsAmount MAX_MONEY tx st
        = rejected 100 "bad-txns-vout-negative" st) /\
     (0 <= nValue txout -> MAX_MONEY < nValue txout ->
        CheckOutputsAmount MAX_MONEY tx st
        = rejected 100 "bad-txns-vout-toolarge" st) /\
     (in_range MAX_MONEY (nValue txout) ->
      MAX_MONEY < sum_amounts nValue pre + nValue txout ->
        CheckOutputsAmount MAX_MONEY tx st
        = rejected 100 "bad-txns-txouttotal-toolarge" st)) /\
  (sums_in_range MAX_MONEY nValue 0 (GetVout tx) ->
     CheckOutputsAmount MAX_MONEY tx st
     = CheckOutputsAmount_joinsplit MAX_MONEY (GetVjoinsplit tx)
         (sum_amounts nValue (GetVout tx)) st /\
     (GetVjoinsplit tx = [] -> CheckOutputsAmount MAX_MONEY tx st = (true, st))).
Proof.
  unfold CheckOutputsAmount. split.
  - intros pre txout post Hvout Hpre. rewrite Hvout.
    apply running_ok_sums in Hpre; [| lia].
    rewrite (CheckOutputsAmount_vout_pass pre (txout :: post) 0 st
               ltac:(lia) int64_0 Hpre).
    rewrite Z.add_0_l.
    destruct (running_ok_total nValue pre 0 ltac:(lia) Hpre) as [Hnn Hle].
    assert (Hint : int64 (sum_amounts nValue pre)).
    { destruct pre as [| o pre]; [apply int64_0 |].
      apply in_range_int64. unfold in_range.
      specialize (Hle ltac:(done)). lia. }
    destruct (CheckOutputsAmount_vout_head txout post
                (sum_amounts nValue pre) st Hnn Hint) as (Hneg & Hbig & Htot).
    repeat split; intros.
    + by rewrite Hneg.
    + by rewrite Hbig.
    + by rewrite Htot.
  - intros Hall. apply running_ok_sums in Hall; [| lia].
    pose proof (CheckOutputsAmount_vout_pass (GetVout tx) [] 0 st
                  ltac:(lia) int64_0 Hall) as Hpass.
    rewrite app_nil_r in Hpass. rewrite Hpass. simpl.
    split; [done |]. intros Hjs. by rewrite Hjs.
Qed.

(** *** Joinsplit values leaving the pool *)

Lemma js_running_ok_pass (vjs : list JSDescription) :
  forall acc, 0 <= acc ->
    js_running_ok MAX_MONEY acc vjs <-> joinsplits_pass MAX_MONEY acc vjs.
Proof.
  unfold joinsplits_pass.
  induction vjs as [| js vjs IH]; intros acc Hacc; simpl.
  - split; [intros _ | done].
    split; [constructor | intros k Hk; simpl in Hk; lia].
  - split.
    + intros (Hwf & Hs & Hrest). pose proof Hwf as (Hold & _ & _).
      unfold in_range in Hold. apply IH in Hrest; [| lia].
      destruct Hrest as [Hall Hpre]. split; [by constructor |].
      intros [| k] Hk; [lia |]. simpl. unfold in_range.
      destruct k as [| k]; [rewrite ?take_0; simpl; lia |].
      specialize (Hpre (S k)). unfold in_range in Hpre. simpl in Hk. lia.
    + intros [Hall Hpre]. inversion Hall as [| ? ? Hwf Hall']; subst.
      pose proof Hwf as (Hold & _ & _). unfold in_range in Hold.
      assert (Hone := Hpre 1%nat). simpl in Hone.
      rewrite ?take_0 in Hone. simpl in Hone. unfold in_range in Hone.
      split; [done |]. split; [lia |].
      apply IH; [lia |]. split; [done |].
      intros k Hk. specialize (Hpre (S k)). simpl in Hpre.
      unfold in_range in *. lia.
Qed.

Lemma js_running_ok_fail (vjs : list JSDescription) :
  forall acc, 0 <= acc ->
    ~ js_running_ok MAX_MONEY acc vjs <-> joinsplits_fail MAX_MONEY acc vjs.
Proof.
  intros acc Hacc. split.
  - revert acc Hacc. unfold joinsplits_fail.
    induction vjs as [| js vjs IH]; intros acc Hacc; simpl; [tauto |].
    intros Hnot.
    destruct (decide (js_well_formed MAX_MONEY js)) as [Hwf | Hwf];
      [| left; apply Exists_cons_hd; unfold js_well_formed, js_ill_formed,
           in_range in *; lia].
    destruct (Z_le_gt_dec (acc + vpub_old js) MAX_MONEY) as [Hle | Hgt].
    + pose proof Hwf as (Hold & _ & _). unfold in_range in Hold.
      destruct (IH (acc + vpub_old js)) as [Hex | (k & Hk & Hbad)];
        [lia | tauto | left; by apply Exists_cons_tl |].
      right. exists (S k). simpl. split; [lia |].
      by rewrite Z.add_assoc.
    + right. exists 1%nat. simpl. rewrite ?take_0. simpl.
      unfold in_range. split; lia.
  - intros Hfail Hok. apply js_running_ok_pass in Hok; [| done].
    destruct Hok as [Hall Hpre].
    destruct Hfail as [Hex | (k & Hk & Hbad)]; [| by apply Hbad, Hpre].
    apply Exists_exists in Hex. destruct Hex as (js & Hin & Hill).
    rewrite Forall_forall in Hall. specialize (Hall js Hin).
    unfold js_well_formed, js_ill_formed, in_range in *. lia.
Qed.

Lemma js_running_ok_dec (vjs : list JSDescription) :
  forall acc, Decision (js_running_ok MAX_MONEY acc vjs).
Proof.
  induction vjs as [| js vjs IH]; intros acc; simpl;
    unfold js_well_formed, in_range; [apply _ |].
  pose proof (IH (acc + vpub_old js)). apply _.
Defined.

Lemma CheckOutputsAmount_joinsplit_spec (vjs : list JSDescription) :
  forall acc st, 0 <= acc -> int64 acc ->
    (js_running_ok MAX_MONEY acc vjs ->
       CheckOutputsAmount_joinsplit MAX_MONEY vjs acc st = (true, st)) /\
    (~ js_running_ok MAX_MONEY acc vjs ->
       fst (CheckOutputsAmount_joinsplit MAX_MONEY vjs acc st) = false).
Proof.
  induction vjs as [| js vjs IH]; intros acc st Hacc Hint; simpl;
    [split; [done | tauto] |].
  unfold js_well_formed, in_range.
  destruct (Z.ltb_spec (vpub_old js) 0); [split; [lia | done] |].
  destruct (Z.ltb_spec (vpub_new js) 0); [split; [lia | done] |].
  destruct (Z.ltb_spec MAX_MONEY (vpub_old js)); [split; [lia | done] |].
  destruct (Z.ltb_spec MAX_MONEY (vpub_new js)); [split; [lia | done] |].
  destruct (Z.eqb_spec (vpub_new js) 0) as [Hn | Hn];
    destruct (Z.eqb_spec (vpub_old js) 0) as [Ho | Ho]; simpl;
    try (split; [lia | done]).
  all: assert (Hv : 0 <= vpub_old js <= MAX_MONEY) by lia.
  all: destruct (add64_int64_in_range acc (vpub_old js) Hint Hv)
         as (Hiff & Heq & _).
  all: destruct (MoneyRange MAX_MONEY (add64 acc (vpub_old js))) eqn:Hr;
         simpl; [| split; [intros (_ & Hs & _) | done];
                   assert (false = true) by (apply Hiff; lia); done].
  all: rewrite (Heq eq_refl).
  all: assert (Hs : 0 <= acc + vpub_old js <= MAX_MONEY) by (by apply Hiff).
  all: destruct (IH (acc + vpub_old js) st ltac:(lia)
                   ltac:(apply in_range_int64; exact Hs)) as [Hok Hbad].
  all: split; [intros (_ & _ & Hrest); by apply Hok |].
  all: intros Hnot; apply Hbad; intros Hrest; apply Hnot.
  all: repeat split; (lia || done).
Qed.

Lemma CheckOutputsAmount_joinsplit_both_nonzero
    (pre : list JSDescription) (js : JSDescription) (post : list JSDescription) :
  forall acc st, 0 <= acc -> int64 acc ->
    js_running_ok MAX_MONEY acc pre ->
    in_range MAX_MONEY (vpub_old js) -> in_range MAX_MONEY (vpub_new js) ->
    vpub_old js <> 0 -> vpub_new js <> 0 ->
    CheckOutputsAmount_joinsplit MAX_MONEY (pre ++ js :: post) acc st
    = rejected 100 "bad-txns-vpubs-both-nonzero" st.
Proof.
  induction pre as [| j pre IH]; intros acc st Hacc Hint; simpl;
    unfold in_range.
  - intros _ Hold Hnew Ho Hn.
    destruct (Z.ltb_spec (vpub_old js) 0); [lia |].
    destruct (Z.ltb_spec (vpub_new js) 0); [lia |].
    destruct (Z.ltb_spec MAX_MONEY (vpub_old js)); [lia |].
    destruct (Z.ltb_spec MAX_MONEY (vpub_new js)); [lia |].
    destruct (Z.eqb_spec (vpub_new js) 0); [lia |].
    destruct (Z.eqb_spec (vpub_old js) 0); [lia |]. reflexivity.
  - intros (Hwf & Hs & Hrest) Hold Hnew Ho Hn.
    unfold js_well_formed, in_range in Hwf.
    destruct (Z.ltb_spec (vpub_old j) 0); [lia |].
    destruct (Z.ltb_spec (vpub_new j) 0); [lia |].
    destruct (Z.ltb_spec MAX_MONEY (vpub_old j)); [lia |].
    destruct (Z.ltb_spec MAX_MONEY (vpub_new j)); [lia |].
    assert (Hb : negb (vpub_new j =? 0) && negb (vpub_old j =? 0) = false).
    { destruct (Z.eqb_spec (vpub_new j) 0);
        destruct (Z.eqb_spec (vpub_old j) 0); simpl; (done || lia). }
    rewrite Hb.
    rewrite (checked_step_sum acc (vpub_old j))
      by (try done; unfold in_range; lia).
    assert (Hr : MoneyRange MAX_MONEY (acc + vpub_old j) = true)
      by (apply MoneyRange_spec; lia).
    rewrite Hr. simpl. apply IH; try done; [lia |].
    apply in_range_int64. unfold in_range. lia.
Qed.

(** C3.  For a record whose transparent outputs all pass,
    [CheckOutputsAmount] returns [true] exactly when every joinsplit is
    well-formed and the running output total with the [vpub_old] values
    stays in range, and [false] exactly when some joinsplit has [vpub_old] or
    [vpub_new] outside [[0, MAX_MONEY]] or both of them non-zero, or the
    running total leaves the range.  The first joinsplit to fail, when it
    fails by having both values non-zero, is rejected with
    "bad-txns-vpubs-both-nonzero". *)
Theorem CheckOutputsAmount_joinsplits_iff (tx : CTransaction)
    (st : CValidationState) :
  sums_in_range MAX_MONEY nValue 0 (GetVout tx) ->
  (fst (CheckOutputsAmount MAX_MONEY tx st) = false <->
     joinsplits_fail MAX_MONEY (sum_amounts nValue (GetVout tx))
       (GetVjoinsplit tx)) /\
  (fst (CheckOutputsAmount MAX_MONEY tx st) = true <->
     joinsplits_pass MAX_MONEY (sum_amounts nValue (GetVout tx))
       (GetVjoinsplit tx)) /\
  (fst (CheckOutputsAmount MAX_MONEY tx st) = true ->
     snd (CheckOutputsAmount MAX_MONEY tx st) = st) /\
  (forall pre js post, GetVjoinsplit tx = pre ++ js :: post ->
     joinsplits_pass MAX_MONEY (sum_amounts nValue (GetVout tx)) pre ->
     in_range MAX_MONEY (vpub_old js) -> in_range MAX_MONEY (vpub_new js) ->
     vpub_old js <> 0 -> vpub_new js <> 0 ->
     CheckOutputsAmount MAX_MONEY tx st
     = rejected 100 "bad-txns-vpubs-both-nonzero" st).
Proof.
  intros Hvout. unfold CheckOutputsAmount.
  apply running_ok_sums in Hvout; [| lia].
  pose proof (CheckOutputsAmount_vout_pass (GetVout tx) [] 0 st
                ltac:(lia) int64_0 Hvout) as Hpass.
  rewrite app_nil_r in Hpass. rewrite Hpass. simpl.
  rewrite Z.add_0_l. clear Hpass.
  destruct (running_ok_total nValue (GetVout tx) 0 ltac:(lia) Hvout)
    as [Hnn Hle].
  assert (Hint : int64 (sum_amounts nValue (GetVout tx))).
  { destruct (GetVout tx) as [| o outs]; [apply int64_0 |].
    apply in_range_int64. unfold in_range.
    specialize (Hle ltac:(done)). lia. }
  set (total := sum_amounts nValue (GetVout tx)) in *.
  destruct (CheckOutputsAmount_joinsplit_spec (GetVjoinsplit tx) total st
              Hnn Hint) as [Hok Hbad].
  pose proof (js_running_ok_pass (GetVjoinsplit tx) total Hnn) as Hp.
  pose proof (js_running_ok_fail (GetVjoinsplit tx) total Hnn) as Hf.
  split; [split | split; [split | split]].
  - intros Hres. apply Hf. intros Hr. rewrite (Hok Hr) in Hres. done.
  - intros Hfail. apply Hbad. by apply Hf.
  - intros Hres. apply Hp.
    destruct (js_running_ok_dec (GetVjoinsplit tx) total) as [Hr | Hr];
      [done |]. rewrite (Hbad Hr) in Hres. done.
  - intros Hpassed. apply Hp in Hpassed. by rewrite (Hok Hpassed).
  - intros Hres.
    destruct (js_running_ok_dec (GetVjoinsplit tx) total) as [Hr | Hr];
      [by rewrite (Hok Hr) |]. rewrite (Hbad Hr) in Hres. done.
  - intros pre js post Hjs Hpre Hold Hnew Ho Hn. rewrite Hjs.
    apply CheckOutputsAmount_joinsplit_both_nonzero; try done.
    by apply js_running_ok_pass.
Qed.

(** *** Value conservation *)

Lemma GetValueOut_vout_checked (vout : list CTxOut) :
  forall acc, GetValueOut_vout MAX_MONEY vout acc
              = checked_sum MAX_MONEY nValue vout acc.
Proof.
  induction vout as [| o vout IH]; intros acc; simpl; [done |].
  by rewrite IH.
Qed.

Lemma GetValueOut_joinsplit_checked (vjs : list JSDescription) :
  forall acc, GetValueOut_joinsplit MAX_MONEY vjs acc
              = checked_sum MAX_MONEY vpub_old vjs acc.
Proof.
  induction vjs as [| js vjs IH]; intros acc; simpl; [done |].
  by rewrite IH.
Qed.

Lemma GetJoinSplitValueIn_checked (vjs : list JSDescription) :
  forall acc, GetJoinSplitValueIn_loop MAX_MONEY vjs acc
              = checked_sum MAX_MONEY vpub_new vjs acc.
Proof.
  induction vjs as [| js vjs IH]; intros acc; simpl; [done |].
  by rewrite IH.
Qed.

Lemma GetValueCcOut_checked {T : Type} `{CrosschainOut T} (ccout : list T) :
  forall acc, GetValueCcOut_loop MAX_MONEY ccout acc
              = checked_sum MAX_MONEY (fun it => cc_nValue (as_crosschain it))
                  ccout acc.
Proof.
  induction ccout as [| it ccout IH]; intros acc; simpl; [done |].
  by rewrite IH.
Qed.

Lemma CheckOutputsAmount_vout_fail (vout : list CTxOut) :
  forall acc st, 0 <= acc -> int64 acc ->
    ~ running_ok MAX_MONEY nValue acc vout ->
    exists r, CheckOutputsAmount_vout MAX_MONEY vout acc st = Return r
              /\ fst r = false.
Proof.
  induction vout as [| o vout IH]; intros acc st Hacc Hint; simpl;
    [tauto |].
  unfold in_range. intros Hnot.
  destruct (Z.ltb_spec (nValue o) 0); [by eexists |].
  destruct (Z.ltb_spec MAX_MONEY (nValue o)); [by eexists |].
  assert (Hv : 0 <= nValue o <= MAX_MONEY) by lia.
  destruct (add64_int64_in_range acc (nValue o) Hint Hv) as (Hiff & Heq & _).
  destruct (MoneyRange MAX_MONEY (add64 acc (nValue o))) eqn:Hr; simpl;
    [| by eexists].
  rewrite (Heq eq_refl).
  assert (Hs : 0 <= acc + nValue o <= MAX_MONEY) by (by apply Hiff).
  apply IH; [lia | by apply in_range_int64 | tauto].
Qed.

Lemma js_running_ok_old (vjs : list JSDescription) :
  forall acc, js_running_ok MAX_MONEY acc vjs ->
              running_ok MAX_MONEY vpub_old acc vjs.
Proof.
  induction vjs as [| js vjs IH]; intros acc; simpl; [done |].
  intros ((Hold & _ & _) & Hs & Hrest). auto.
Qed.

(** What acceptance by [CheckOutputsAmount] gives. *)
Lemma CheckOutputsAmount_true (tx : CTransaction) (st : CValidationState) :
  fst (CheckOutputsAmount MAX_MONEY tx st) = true ->
  running_ok MAX_MONEY nValue 0 (GetVout tx) /\
  running_ok MAX_MONEY vpub_old (sum_amounts nValue (GetVout tx))
    (GetVjoinsplit tx).
Proof.
  unfold CheckOutputsAmount. intros Hres.
  destruct (running_ok_dec nValue (GetVout tx) 0) as [Hout | Hout].
  - split; [done |].
    pose proof (CheckOutputsAmount_vout_pass (GetVout tx) [] 0 st
                  ltac:(lia) int64_0 Hout) as Hpass.
    rewrite app_nil_r in Hpass. rewrite Hpass in Hres. simpl in Hres.
    rewrite Z.add_0_l in Hres.
    destruct (running_ok_total nValue (GetVout tx) 0 ltac:(lia) Hout)
      as [Hnn Hle].
    assert (Hint : int64 (sum_amounts nValue (GetVout tx))).
    { destruct (GetVout tx) as [| o outs]; [apply int64_0 |].
      apply in_range_int64. unfold in_range.
      specialize (Hle ltac:(done)). lia. }
    apply js_running_ok_old.
    destruct (js_running_ok_dec (GetVjoinsplit tx)
                (sum_amounts nValue (GetVout tx))) as [Hjs | Hjs]; [done |].
    destruct (CheckOutputsAmount_joinsplit_spec (GetVjoinsplit tx)
                (sum_amounts nValue (GetVout tx)) st Hnn Hint) as [_ Hbad].
    rewrite (Hbad Hjs) in Hres. done.
  - destruct (CheckOutputsAmount_vout_fail (GetVout tx) 0 st
                ltac:(lia) int64_0 Hout) as (r & Hr & Hfalse).
    rewrite Hr in Hres. congruence.
Qed.

Lemma wrap64_add_wrap64 (a b : Z) : wrap64 (a + wrap64 b) = wrap64 (a + b).
Proof.
  unfold wrap64.
  replace (a + ((b + 2 ^ 63) mod 2 ^ 64 - 2 ^ 63) + 2 ^ 63)
    with (a + (b + 2 ^ 63) mod 2 ^ 64) by lia.
  rewrite Z.add_mod_idemp_r by lia. f_equal. f_equal. lia.
Qed.

Lemma add64_assoc3 (a sc cl ft : Z) :
  add64 a (add64 (add64 sc cl) ft) = wrap64 (a + (sc + cl + ft)).
Proof.
  unfold add64.
  rewrite wrap64_add_wrap64.
  rewrite (Z.add_comm (wrap64 (sc + cl)) ft), Z.add_assoc.
  rewrite wrap64_add_wrap64. f_equal. lia.
Qed.

(** C1, amended.  For a record accepted by [CheckOutputsAmount] and
    [CheckInputsAmount] whose crosschain amounts and their running sums, kind
    by kind, lie in [[0, MAX_MONEY]], [GetValueOut] and [GetJoinSplitValueIn]
    both return.  [GetJoinSplitValueIn] is the sum of the [vpub_new];
    [GetValueOut] is the sum of the transparent outputs, of the [vpub_old]
    and of the crosschain outputs, taken as a 64-bit value.  So, whenever
    that total is a 64-bit value, the outputs plus the [vpub_old] plus the
    crosschain amounts minus the [vpub_new] equal [GetValueOut] minus
    [GetJoinSplitValueIn] exactly. *)
Theorem value_conservation (tx : CTransaction) (st1 st2 : CValidationState) :
  fst (CheckOutputsAmount MAX_MONEY tx st1) = true ->
  fst (CheckInputsAmount MAX_MONEY tx st2) = true ->
  sums_in_range MAX_MONEY (fun it => cc_nValue (as_crosschain it)) 0
    (vsc_ccout tx) ->
  sums_in_range MAX_MONEY (fun it => cc_nValue (as_crosschain it)) 0
    (vcl_ccout tx) ->
  sums_in_range MAX_MONEY (fun it => cc_nValue (as_crosschain it)) 0
    (vft_ccout tx) ->
  exists valueOut valueIn : CAmount,
    GetValueOut MAX_MONEY tx = Some valueOut /\
    GetJoinSplitValueIn MAX_MONEY tx = Some valueIn /\
    valueIn = sum_amounts vpub_new (vjoinsplit tx) /\
    valueOut = wrap64 (sum_amounts nValue (vout tx)
                       + sum_amounts vpub_old (vjoinsplit tx) + cc_total tx) /\
    (sum_amounts nValue (vout tx) + sum_amounts vpub_old (vjoinsplit tx)
       + cc_total tx <= INT64_MAX ->
     sum_amounts nValue (vout tx) + sum_amounts vpub_old (vjoinsplit tx)
       + cc_total tx - sum_amounts vpub_new (vjoinsplit tx)
     = valueOut - valueIn).
Proof.
  intros Hout Hin Hsc Hcl Hft.
  apply CheckOutputsAmount_true in Hout. destruct Hout as [Hvout Hold].
  assert (Hnew : running_ok MAX_MONEY vpub_new 0 (vjoinsplit tx)).
  { destruct (running_ok_dec vpub_new (vjoinsplit tx) 0) as [Hr | Hr];
      [done |].
    destruct (CheckInputsAmount_loop_spec (vjoinsplit tx) 0 st2
                ltac:(lia) int64_0) as [_ Hbad].
    unfold CheckInputsAmount, GetVjoinsplit in Hin.
    rewrite (Hbad Hr) in Hin. done. }
  apply running_ok_sums in Hsc, Hcl, Hft; try lia.
  unfold GetVout, GetVjoinsplit in *.
  destruct (running_ok_total nValue (vout tx) 0 ltac:(lia) Hvout)
    as [Hnn Hle].
  assert (Hint : int64 (sum_amounts nValue (vout tx))).
  { destruct (vout tx) as [| o outs]; [apply int64_0 |].
    apply in_range_int64. unfold in_range.
    specialize (Hle ltac:(done)). lia. }
  destruct (running_ok_total vpub_old (vjoinsplit tx) _ Hnn Hold)
    as [Hnn_old _].
  destruct (running_ok_total _ (vsc_ccout tx) 0 ltac:(lia) Hsc) as [Hnn_sc _].
  destruct (running_ok_total _ (vcl_ccout tx) 0 ltac:(lia) Hcl) as [Hnn_cl _].
  destruct (running_ok_total _ (vft_ccout tx) 0 ltac:(lia) Hft) as [Hnn_ft _].
  exists (wrap64 (sum_amounts nValue (vout tx)
                  + sum_amounts vpub_old (vjoinsplit tx) + cc_total tx)),
    (sum_amounts vpub_new (vjoinsplit tx)).
  split; [| split; [| split; [reflexivity | split; [reflexivity |]]]].
  - unfold GetValueOut, CTransactionBase_GetValueOut, GetValueCcOut, GetVout.
    rewrite GetValueOut_vout_checked.
    rewrite (proj1 (checked_sum_spec nValue (vout tx) 0 ltac:(lia) int64_0)
               Hvout).
    simpl. rewrite Z.add_0_l, GetValueOut_joinsplit_checked.
    rewrite (proj1 (checked_sum_spec vpub_old (vjoinsplit tx) _ Hnn Hint)
               Hold).
    simpl. rewrite !GetValueCcOut_checked.
    rewrite (proj1 (checked_sum_spec _ (vsc_ccout tx) 0 ltac:(lia) int64_0)
               Hsc).
    simpl.
    rewrite (proj1 (checked_sum_spec _ (vcl_ccout tx) 0 ltac:(lia) int64_0)
               Hcl).
    simpl.
    rewrite (proj1 (checked_sum_spec _ (vft_ccout tx) 0 ltac:(lia) int64_0)
               Hft).
    simpl. rewrite !Z.add_0_l, add64_assoc3.
    unfold cc_total. do 2 f_equal.
  - unfold GetJoinSplitValueIn. rewrite GetJoinSplitValueIn_checked.
    rewrite (proj1 (checked_sum_spec vpub_new (vjoinsplit tx) 0 ltac:(lia)
                      int64_0) Hnew).
    reflexivity.
  - intros Hfit. unfold cc_total in *.
    rewrite wrap64_id; [lia |].
    unfold int64, INT64_MIN. lia.
Qed.

End Facts.

(** ** Inputs *)

Section Inputs.

Variable IsNull : COutPoint -> bool.

(** *** Duplicate inputs and nullifiers *)

(** Membership goals on the sets the check builds. *)
Ltac set_crush := set_unfold; intuition (subst; eauto; try congruence).

Lemma fresh_cons {K : Type} `{Countable K} (seen : gset K) (x : K) (l : list K) :
  fresh seen (x :: l) <-> (x ∉ seen) /\ fresh ({[x]} ∪ seen) l.
Proof.
  unfold fresh. rewrite NoDup_cons, Forall_cons, !Forall_forall.
  split.
  - intros ((Hx & Hnd) & Hs & Hall). repeat split; [done | done |].
    intros y Hy. specialize (Hall y Hy). set_crush.
  - intros (Hs & Hnd & Hall). repeat split; [| done | done |].
    + intros Hx. specialize (Hall x Hx). set_crush.
    + intros y Hy. specialize (Hall y Hy). set_crush.
Qed.

Lemma fresh_empty {K : Type} `{Countable K} (l : list K) :
  fresh (∅ : gset K) l <-> NoDup l.
Proof.
  unfold fresh. split; [tauto |]. intros Hnd. split; [done |].
  apply Forall_forall. set_crush.
Qed.

Lemma fresh_app {K : Type} `{Countable K} (l1 l2 : list K) :
  forall seen seen' : gset K,
    (forall x, x ∈ seen' <-> x ∈ l1 \/ x ∈ seen) ->
    fresh seen (l1 ++ l2) <-> fresh seen l1 /\ fresh seen' l2.
Proof.
  induction l1 as [| y l1 IH]; intros seen seen' Hseen; simpl.
  - assert (Heq : seen' = seen)
      by (apply set_eq; intros x; rewrite Hseen, elem_of_nil; tauto).
    subst.
    unfold fresh at 2. split; [| tauto]. intros Hf.
    split; [split; constructor | done].
  - rewrite !fresh_cons.
    rewrite (IH ({[y]} ∪ seen) seen'); [tauto |].
    intros x. rewrite Hseen. set_crush.
Qed.

Lemma CheckInputsDuplication_vin_spec (vin : list CTxIn) :
  forall (seen : gset COutPoint) (st : CValidationState),
    (fresh seen (prevout <$> vin) ->
       CheckInputsDuplication_vin vin seen st = Continue tt) /\
    (~ fresh seen (prevout <$> vin) ->
       CheckInputsDuplication_vin vin seen st
       = Return (rejected 100 "bad-txns-inputs-duplicate" st)).
Proof.
  induction vin as [| txin vin IH]; intros seen st; simpl.
  - split; [done |]. intros Hnot. exfalso. apply Hnot.
    split; constructor.
  - rewrite fresh_cons.
    destruct (decide (prevout txin ∈ seen)) as [Hin | Hin].
    + split; [tauto | done].
    + destruct (IH ({[prevout txin]} ∪ seen) st) as [Hok Hbad].
      split; [intros [_ Hf]; by apply Hok |].
      intros Hnot. apply Hbad. tauto.
Qed.

Lemma CheckInputsDuplication_nf_spec (nfs : list uint256) :
  forall (seen : gset uint256) (st : CValidationState),
    (fresh seen nfs ->
       exists seen',
         CheckInputsDuplication_nf nfs seen st = Continue seen' /\
         forall x, x ∈ seen' <-> x ∈ nfs \/ x ∈ seen) /\
    (~ fresh seen nfs ->
       CheckInputsDuplication_nf nfs seen st
       = Return (rejected 100 "bad-joinsplits-nullifiers-duplicate" st)).
Proof.
  induction nfs as [| nf nfs IH]; intros seen st; simpl.
  - split.
    + intros _. exists seen. split; [done | set_crush].
    + intros Hnot. exfalso. apply Hnot. split; constructor.
  - rewrite fresh_cons.
    destruct (decide (nf ∈ seen)) as [Hin | Hin].
    + split; [tauto | done].
    + destruct (IH ({[nf]} ∪ seen) st) as [Hok Hbad].
      split.
      * intros [_ Hf]. destruct (Hok Hf) as (seen' & Hres & Hseen).
        exists seen'. split; [done |]. intros x. rewrite Hseen. set_crush.
      * intros Hnot. apply Hbad. tauto.
Qed.

Lemma CheckInputsDuplication_joinsplit_spec (vjs : list JSDescription) :
  forall (seen : gset uint256) (st : CValidationState),
    (fresh seen (all_nullifiers vjs) ->
       CheckInputsDuplication_joinsplit vjs seen st = (true, st)) /\
    (~ fresh seen (all_nullifiers vjs) ->
       CheckInputsDuplication_joinsplit vjs seen st
       = rejected 100 "bad-joinsplits-nullifiers-duplicate" st).
Proof.
  unfold all_nullifiers.
  induction vjs as [| js vjs IH]; intros seen st; simpl.
  - split; [done |]. intros Hnot. exfalso. apply Hnot. split; constructor.
  - destruct (CheckInputsDuplication_nf_spec (nullifiers_list js) seen st)
      as [Hok Hbad].
    destruct (decide (fresh seen (nullifiers_list js))) as [Hf | Hf].
    + destruct (Hok Hf) as (seen' & Hres & Hseen). simpl in Hres.
      rewrite Hres.
      pose proof (fresh_app (nullifiers_list js)
                    (concat (nullifiers_list <$> vjs)) seen seen' Hseen)
        as Happ.
      simpl in Happ.
      destruct (IH seen' st) as [Hok' Hbad'].
      split; [intros Hall; apply Hok'; tauto |].
      intros Hnot. apply Hbad'. tauto.
    + simpl in Hbad. rewrite (Hbad Hf).
      split; [| done]. intros Hall. exfalso. apply Hf.
      pose proof (fresh_app (nullifiers_list js)
                    (concat (nullifiers_list <$> vjs)) seen
                    (list_to_set (nullifiers_list js) ∪ seen)) as Happ.
      simpl in Happ. apply Happ; [set_crush | done].
Qed.

(** C5.  [CheckInputsDuplication] returns [true] if and only if no two
    inputs reference the same prior output and no nullifier occurs twice
    among the nullifiers of all joinsplits of the record taken together.  A
    repeated prior output is rejected with "bad-txns-inputs-duplicate"; with
    the prior outputs distinct, a repeated nullifier is rejected with
    "bad-joinsplits-nullifiers-duplicate".  The verdict depends on the record
    alone: the validation state it is given is not read, and it is returned
    unchanged on success. *)
Theorem CheckInputsDuplication_iff (tx : CTransaction) (st : CValidationState) :
  (fst (CheckInputsDuplication tx st) = true <->
     NoDup (prevouts tx) /\ NoDup (all_nullifiers (GetVjoinsplit tx))) /\
  (~ NoDup (prevouts tx) ->
     CheckInputsDuplication tx st
     = rejected 100 "bad-txns-inputs-duplicate" st) /\
  (NoDup (prevouts tx) -> ~ NoDup (all_nullifiers (GetVjoinsplit tx)) ->
     CheckInputsDuplication tx st
     = rejected 100 "bad-joinsplits-nullifiers-duplicate" st) /\
  (NoDup (prevouts tx) -> NoDup (all_nullifiers (GetVjoinsplit tx)) ->
     CheckInputsDuplication tx st = (true, st)) /\
  (forall st', fst (CheckInputsDuplication tx st')
               = fst (CheckInputsDuplication tx st)).
Proof.
  assert (Hcases : forall s,
    (~ NoDup (prevouts tx) ->
       CheckInputsDuplication tx s
       = rejected 100 "bad-txns-inputs-duplicate" s) /\
    (NoDup (prevouts tx) -> ~ NoDup (all_nullifiers (GetVjoinsplit tx)) ->
       CheckInputsDuplication tx s
       = rejected 100 "bad-joinsplits-nullifiers-duplicate" s) /\
    (NoDup (prevouts tx) -> NoDup (all_nullifiers (GetVjoinsplit tx)) ->
       CheckInputsDuplication tx s = (true, s))).
  { intros s. unfold CheckInputsDuplication, prevouts.
    destruct (CheckInputsDuplication_vin_spec (GetVin tx) ∅ s) as [Hok Hbad].
    destruct (CheckInputsDuplication_joinsplit_spec (GetVjoinsplit tx) ∅ s)
      as [Hok' Hbad'].
    rewrite fresh_empty in Hok, Hbad. rewrite fresh_empty in Hok', Hbad'.
    split; [intros Hdup; by rewrite (Hbad Hdup) |].
    split; intros Hnd Hnf; rewrite (Hok Hnd); auto. }
  destruct (Hcases st) as (Hdup & Hnf & Hok).
  split; [| split; [done | split; [done | split; [done |]]]].
  - destruct (decide (NoDup (prevouts tx))) as [Hp | Hp];
      [| rewrite (Hdup Hp); simpl; split; [done | tauto]].
    destruct (decide (NoDup (all_nullifiers (GetVjoinsplit tx)))) as [Hn | Hn];
      [rewrite (Hok Hp Hn); simpl; tauto |].
    rewrite (Hnf Hp Hn). simpl. split; [done | tauto].
  - intros st'. destruct (Hcases st') as (Hdup' & Hnf' & Hok').
    destruct (decide (NoDup (prevouts tx))) as [Hp | Hp];
      [| by rewrite (Hdup Hp), (Hdup' Hp)].
    destruct (decide (NoDup (all_nullifiers (GetVjoinsplit tx)))) as [Hn | Hn];
      [by rewrite (Hok Hp Hn), (Hok' Hp Hn) |].
    by rewrite (Hnf Hp Hn), (Hnf' Hp Hn).
Qed.

(** *** Coinbase and null references *)

Lemma CheckInputsInteraction_vin_spec (vin : list CTxIn) (st : CValidationState) :
  (Forall (fun txin => IsNull (prevout txin) = false) vin ->
     CheckInputsInteraction_vin IsNull vin st = (true, st)) /\
  (~ Forall (fun txin => IsNull (prevout txin) = false) vin ->
     CheckInputsInteraction_vin IsNull vin st
     = rejected 10 "bad-txns-prevout-null" st).
Proof.
  induction vin as [| txin vin [IHok IHbad]]; simpl.
  - split; [done |]. intros Hnot. exfalso. apply Hnot. constructor.
  - rewrite Forall_cons. destruct (IsNull (prevout txin)).
    + split; [intros [? _]; done | done].
    + split; [intros [_ Hall]; by apply IHok |].
      intros Hnot. apply IHbad. tauto.
Qed.

Lemma IsCoinBase_inv (tx : CTransaction) :
  IsCoinBase IsNull tx = true ->
  exists txin, GetVin tx = [txin] /\ IsNull (prevout txin) = true.
Proof.
  unfold IsCoinBase. destruct (GetVin tx) as [| txin [| ? ?]]; try done.
  intros Hnull. by exists txin.
Qed.

(** C6.  For a coinbase record, [CheckInputsInteraction] returns [true] if
    and only if the record has no joinsplit and the script of its first input
    is 2 to 100 bytes long; a joinsplit is rejected with
    "bad-cb-has-joinsplits" and, without joinsplits, another length with
    "bad-cb-length".  For any other record it returns [true] if and only if
    no input references the null prior output; such an input is rejected with
    "bad-txns-prevout-null".  In particular a coinbase record with one input
    whose script is 2 to 100 bytes long and without joinsplits passes, the
    validation state unchanged. *)
Theorem CheckInputsInteraction_iff (tx : CTransaction) (st : CValidationState) :
  (IsCoinBase IsNull tx = true ->
     (fst (CheckInputsInteraction IsNull tx st) = true <->
        GetVjoinsplit tx = [] /\
        exists txin0, GetVin tx !! 0%nat = Some txin0 /\
          (2 <= length (scriptSig txin0) <= 100)%nat) /\
     (GetVjoinsplit tx <> [] ->
        CheckInputsInteraction IsNull tx st
        = rejected 100 "bad-cb-has-joinsplits" st) /\
     (forall txin0, GetVjoinsplit tx = [] -> GetVin tx !! 0%nat = Some txin0 ->
        ~ (2 <= length (scriptSig txin0) <= 100)%nat ->
        CheckInputsInteraction IsNull tx st
        = rejected 100 "bad-cb-length" st) /\
     (forall txin0, GetVjoinsplit tx = [] -> GetVin tx !! 0%nat = Some txin0 ->
        (2 <= length (scriptSig txin0) <= 100)%nat ->
        CheckInputsInteraction IsNull tx st = (true, st))) /\
  (IsCoinBase IsNull tx = false ->
     (fst (CheckInputsInteraction IsNull tx st) = true <->
        Forall (fun txin => IsNull (prevout txin) = false) (GetVin tx)) /\
     (~ Forall (fun txin => IsNull (prevout txin) = false) (GetVin tx) ->
        CheckInputsInteraction IsNull tx st
        = rejected 10 "bad-txns-prevout-null" st) /\
     (Forall (fun txin => IsNull (prevout txin) = false) (GetVin tx) ->
        CheckInputsInteraction IsNull tx st = (true, st))).
Proof.
  unfold CheckInputsInteraction. split; intros Hcb; rewrite Hcb.
  - destruct (IsCoinBase_inv tx Hcb) as (txin & Hvin & _).
    rewrite Hvin. simpl.
    destruct (GetVjoinsplit tx) as [| js vjs] eqn:Hjs; simpl.
    + destruct (Nat.ltb_spec (length (scriptSig txin)) 2) as [Hlo | Hlo];
        simpl.
      * split; [split; [done |] |].
        { intros (_ & txin0 & [= <-] & Hlen). lia. }
        split; [done |]. split; [done |].
        intros txin0 _ [= <-] Hlen. lia.
      * destruct (Nat.ltb_spec 100 (length (scriptSig txin))) as [Hhi | Hhi];
          simpl.
        -- split; [split; [done |] |].
           { intros (_ & txin0 & [= <-] & Hlen). lia. }
           split; [done |]. split; [done |].
           intros txin0 _ [= <-] Hlen. lia.
        -- split; [split; [intros _ |done] |].
           { split; [done |]. exists txin. split; [done | lia]. }
           split; [done |]. split; [| done].
           intros txin0 _ [= <-] Hlen. lia.
    + split; [split; [done | intros [? _]; done] |].
      split; [done |]. split; intros; done.
  - destruct (CheckInputsInteraction_vin_spec (GetVin tx) st) as [Hok Hbad].
    split; [| done].
    destruct (decide (Forall (fun txin => IsNull (prevout txin) = false)
                        (GetVin tx))) as [Hall | Hall].
    + rewrite (Hok Hall). simpl. tauto.
    + rewrite (Hbad Hall). simpl. split; [done | tauto].
Qed.

(** *** Value entering a record *)

Lemma add64_wrap64_l (a v : Z) : add64 (wrap64 a) v = wrap64 (a + v).
Proof.
  unfold add64. rewrite (Z.add_comm (wrap64 a) v), wrap64_add_wrap64.
  f_equal. lia.
Qed.

Lemma GetValueIn_vin_resolved (view : CCoinsViewCache) (vin : list CTxIn) :
  forall acc asked,
    Forall (fun txin => is_Some (view txin)) vin ->
    GetValueIn_vin view vin (wrap64 acc) asked
    = (Some (wrap64 (acc + resolved_total view vin)), asked ++ vin).
Proof.
  unfold resolved_total.
  induction vin as [| txin vin IH]; intros acc asked Hall; simpl.
  - by rewrite Z.add_0_r, app_nil_r.
  - inversion Hall as [| ? ? [txout Hview] Hall']; subst.
    rewrite Hview. simpl. rewrite add64_wrap64_l, IH by done.
    rewrite <- app_assoc. simpl. do 3 f_equal. lia.
Qed.

(** C9.  For a coinbase record [GetValueIn] returns 0 whatever the view: the
    view is not asked for any input and the sum of the [vpub_new] is not
    added.  For any other record whose inputs the view resolves and whose
    [GetJoinSplitValueIn] returns, it asks the view for every input in order
    and returns the 64-bit sum of the resolved amounts and of the sum of the
    [vpub_new]. *)
Theorem GetValueIn_coinbase (MAX_MONEY : CAmount) (tx : CTransaction)
    (view : CCoinsViewCache) :
  (IsCoinBase IsNull tx = true ->
     GetValueIn MAX_MONEY IsNull tx view = (Some 0, [])) /\
  (IsCoinBase IsNull tx = false ->
     Forall (fun txin => is_Some (view txin)) (vin tx) ->
     forall js, GetJoinSplitValueIn MAX_MONEY tx = Some js ->
       GetValueIn MAX_MONEY IsNull tx view
       = (Some (wrap64 (resolved_total view (vin tx) + js)), vin tx)).
Proof.
  unfold GetValueIn. split; intros Hcb; rewrite Hcb; [done |].
  intros Hall js Hjs.
  pose proof (GetValueIn_vin_resolved view (vin tx) 0 [] Hall) as Hres.
  rewrite (wrap64_id 0) in Hres
    by (unfold int64, INT64_MIN, INT64_MAX; lia).
  rewrite Hres, Hjs. simpl. by rewrite add64_wrap64_l.
Qed.

End Inputs.

(** ** The shuffle and its map *)

Section ShuffleFacts.

Context {G : Type} (gen : Z -> G -> Z * G).

Lemma length_swap {A : Type} (l : list A) (i r : nat) :
  length (swap l i r) = length l.
Proof.
  unfold swap. destruct (l !! i), (l !! r); try done.
  by rewrite !length_insert.
Qed.

Lemma lookup_swap {A : Type} (l : list A) (i r j : nat) :
  (i < length l)%nat -> (r < length l)%nat ->
  swap l i r !! j
  = if decide (j = r) then l !! i
    else if decide (j = i) then l !! r else l !! j.
Proof.
  intros Hi Hr. unfold swap.
  destruct (lookup_lt_is_Some_2 l i Hi) as [x Hx].
  destruct (lookup_lt_is_Some_2 l r Hr) as [y Hy].
  rewrite Hx, Hy.
  destruct (decide (j = r)) as [-> | Hjr].
  - by rewrite list_lookup_insert_eq by (by rewrite length_insert).
  - rewrite list_lookup_insert_ne by done.
    destruct (decide (j = i)) as [-> | Hji].
    + by rewrite list_lookup_insert_eq.
    + by rewrite list_lookup_insert_ne.
Qed.

(** Exchanging the same two positions in the array and in the map keeps the
    two in step. *)
Lemma mapped_swap {A : Type} (orig first : list A) (mapFirst : list N)
    (i r : nat) :
  (i < length orig)%nat -> (r < length orig)%nat ->
  mapped orig first mapFirst ->
  mapped orig (swap first i r) (swap mapFirst i r).
Proof.
  intros Hi Hr (Hlf & Hlm & Hval & Hsur).
  split; [by rewrite length_swap |]. split; [by rewrite length_swap |].
  split.
  - intros j x. rewrite !lookup_swap by lia.
    destruct (decide (j = r)); [apply Hval |].
    destruct (decide (j = i)); apply Hval.
  - intros k Hk. destruct (Hsur k Hk) as (j & Hj).
    destruct (decide (j = i)) as [-> | Hji].
    + exists r. rewrite lookup_swap by lia. by rewrite decide_True.
    + destruct (decide (j = r)) as [-> | Hjr].
      * exists i. rewrite lookup_swap by lia.
        destruct (decide (i = r)) as [-> | ?]; [done |].
        by rewrite decide_True.
      * exists j. rewrite lookup_swap by lia.
        by rewrite !decide_False.
Qed.

Lemma mapped_init {A : Type} (orig : list A) :
  mapped orig orig (N.of_nat <$> seq 0 (length orig)).
Proof.
  split; [done |]. split; [by rewrite length_fmap, length_seq |].
  split.
  - intros i x Hx. exists (N.of_nat i).
    pose proof (lookup_lt_Some _ _ _ Hx) as Hlt.
    rewrite list_lookup_fmap, lookup_seq_lt by done. simpl.
    by rewrite Nat2N.id.
  - intros k Hk. exists k.
    by rewrite list_lookup_fmap, lookup_seq_lt.
Qed.

(** The loop keeps the array and the map in step, whatever the generator
    answers: an answer out of range stops it. *)
Lemma MappedShuffle_loop_mapped {A : Type} (orig : list A) (i : nat) :
  forall first mapFirst g first' mapFirst' g',
    (i < length orig)%nat ->
    mapped orig first mapFirst ->
    MappedShuffle_loop gen i first mapFirst g = Some (first', mapFirst', g') ->
    mapped orig first' mapFirst'.
Proof.
  induction i as [| i IH]; intros first mapFirst g first' mapFirst' g' Hi Hm;
    simpl.
  - intros [= <- <- <-]. done.
  - destruct (gen (Z.of_nat (S i) + 1) g) as [r g1].
    destruct ((0 <=? r) && (r <=? Z.of_nat (S i))) eqn:Hr; [| done].
    apply andb_true_iff in Hr. destruct Hr as [Hr0 Hr1].
    apply Z.leb_le in Hr0, Hr1.
    apply IH; [lia |]. apply mapped_swap; [done | lia | done].
Qed.

(** With a generator that honours its contract the loop runs to its end. *)
Lemma MappedShuffle_loop_returns {A : Type} (i : nat) :
  gen_in_range gen ->
  forall (first : list A) mapFirst g,
    is_Some (MappedShuffle_loop gen i first mapFirst g).
Proof.
  intros Hgen. induction i as [| i IH]; intros first mapFirst g; simpl;
    [done |].
  pose proof (Hgen (Z.of_nat (S i) + 1) g ltac:(lia)) as Hr.
  destruct (gen (Z.of_nat (S i) + 1) g) as [r g1]. simpl in Hr.
  assert (Hb : (0 <=? r) && (r <=? Z.of_nat (S i)) = true).
  { apply andb_true_iff. split; apply Z.leb_le; lia. }
  rewrite Hb. apply IH.
Qed.

(** Exchanging two positions permutes the list. *)
Lemma swap_Permutation {A : Type} (l : list A) (i r : nat) : swap l i r ≡ₚ l.
Proof.
  destruct (decide (i < length l)%nat) as [Hi | Hi];
    [| unfold swap; by rewrite (lookup_ge_None_2 l i) by lia].
  destruct (decide (r < length l)%nat) as [Hr | Hr];
    [| unfold swap; rewrite (lookup_ge_None_2 l r) by lia;
       by destruct (l !! i)].
  apply Permutation_inj. split; [apply length_swap |].
  exists (fun j => if decide (j = r) then i
                   else if decide (j = i) then r else j).
  split.
  - intros j1 j2 Heq. repeat case_decide; congruence.
  - intros j. rewrite lookup_swap by done. by repeat case_decide.
Qed.

(** The loop only permutes: the array and the map it leaves hold what they
    held before. *)
Lemma MappedShuffle_loop_Permutation {A : Type} (i : nat) :
  forall (first : list A) mapFirst g first' mapFirst' g',
    MappedShuffle_loop gen i first mapFirst g = Some (first', mapFirst', g') ->
    first' ≡ₚ first /\ mapFirst' ≡ₚ mapFirst.
Proof.
  induction i as [| i IH]; intros first mapFirst g first' mapFirst' g'; simpl.
  - intros [= <- <- <-]. done.
  - destruct (gen (Z.of_nat (S i) + 1) g) as [r g1].
    destruct ((0 <=? r) && (r <=? Z.of_nat (S i))); [| done].
    intros Hloop. apply IH in Hloop. destruct Hloop as [Hf Hm].
    by rewrite Hf, Hm, !swap_Permutation.
Qed.

(** With the array and its map in step, and the map a permutation of the
    positions, the map leads back to the original array. *)
Lemma unshuffle_mapped {A : Type} (orig first : list A) (mapFirst : list N) :
  mapped orig first mapFirst ->
  mapFirst ≡ₚ N.of_nat <$> seq 0 (length orig) ->
  unshuffle first mapFirst = Some orig.
Proof.
  intros (Hlf & Hlm & Hval & Hsur) Hperm. unfold unshuffle. rewrite Hlf.
  rewrite decide_True by done.
  apply mapM_Some. apply Forall2_same_length_lookup_2.
  { by rewrite length_fmap, length_seq. }
  intros j k y Hk Hy.
  pose proof (lookup_lt_Some _ _ _ Hy) as Hj.
  rewrite list_lookup_fmap, lookup_seq_lt in Hk by done.
  simpl in Hk. injection Hk as <-.
  destruct (Hsur j Hj) as (i0 & Hi0).
  destruct (list_find_elem_of (fun x => x = N.of_nat j) mapFirst (N.of_nat j))
    as [[i k'] Hfind]; [by eapply list_elem_of_lookup_2 | done |].
  unfold position_of. rewrite Hfind. simpl.
  apply list_find_Some in Hfind. destruct Hfind as (Hi & -> & _).
  destruct (lookup_lt_is_Some_2 first i) as [x Hx];
    [apply lookup_lt_Some in Hi; lia |].
  rewrite Hx. destruct (Hval i x Hx) as (k'' & Hk'' & Horig).
  rewrite Hi in Hk''. injection Hk'' as <-.
  rewrite Nat2N.id in Horig. congruence.
Qed.

(** [MappedShuffle] on a whole array, from the identity map: the array is
    permuted, the map is a permutation of the positions that tells, for each
    position of the result, where its element stood, and it leads back to the
    original array. *)
Lemma MappedShuffle_records {A : Type} (orig : list A) (g : G)
    (first' : list A) (mapFirst' : list N) (g' : G) :
  MappedShuffle gen orig (N.of_nat <$> seq 0 (length orig)) (length orig) g
  = Some (first', mapFirst', g') ->
  first' ≡ₚ orig /\
  mapFirst' ≡ₚ N.of_nat <$> seq 0 (length orig) /\
  (forall i k, mapFirst' !! i = Some k -> first' !! i = orig !! N.to_nat k) /\
  unshuffle first' mapFirst' = Some orig.
Proof.
  unfold MappedShuffle. intros Hres.
  destruct (MappedShuffle_loop_Permutation _ _ _ _ _ _ _ Hres) as [Hf Hm].
  assert (Hmapped : mapped orig first' mapFirst').
  { destruct orig as [| a orig].
    - simpl in Hres. injection Hres as <- <- <-. apply (mapped_init []).
    - apply (MappedShuffle_loop_mapped (a :: orig) (length (a :: orig) - 1)
               (a :: orig) (N.of_nat <$> seq 0 (length (a :: orig))) g
               first' mapFirst' g'); [simpl; lia | apply mapped_init | done]. }
  split; [done |]. split; [done |]. split; [| by apply unshuffle_mapped].
  destruct Hmapped as (Hlf & Hlm & Hval & _). intros i k Hk.
  destruct (lookup_lt_is_Some_2 first' i) as [x Hx];
    [apply lookup_lt_Some in Hk; lia |].
  destruct (Hval i x Hx) as (k' & Hk' & Horig). congruence.
Qed.

(** On an array of two the generator is asked once, for a position below 2:
    the answer 0 exchanges the two elements, the answer 1 leaves them, and any
    other answer stops the program. *)
Lemma MappedShuffle_two {A : Type} (x y : A) (g : G) :
  MappedShuffle gen [x; y] [0%N; 1%N] 2 g
  = if decide (fst (gen 2 g) = 0) then
      Some ([y; x], [1%N; 0%N], snd (gen 2 g))
    else if decide (fst (gen 2 g) = 1) then
      Some ([x; y], [0%N; 1%N], snd (gen 2 g))
    else None.
Proof.
  unfold MappedShuffle. simpl. change (Z.of_nat 1 + 1) with 2.
  destruct (gen 2 g) as [r g1]. simpl.
  destruct (decide (r = 0)) as [-> | H0]; [done |].
  destruct (decide (r = 1)) as [-> | H1]; [done |].
  change (Z.of_nat 1) with 1.
  destruct (Z.leb_spec 0 r), (Z.leb_spec r 1); simpl; try done. lia.
Qed.

Section Randomized.

Context {JSInput JSOutput : Type}.
Variable prove :
  bool -> uint256 -> uint256 -> list JSInput -> list JSOutput ->
  CAmount -> CAmount -> bool -> JSDescription.

(** C7.  Given arrays of two inputs and two outputs, [Randomized] asks the
    generator once for the inputs and then once for the outputs, each time for
    a position below 2.  Whenever it returns: each array is a permutation of
    the one given, exchanged exactly when the generator answered 0 for it;
    each map is a permutation of the positions 0 and 1 and tells, for every
    position of the shuffled array, where its element stood in the original;
    applying the recorded permutation to the shuffled array gives back the
    original array; and the description is built from the shuffled arrays.
    [Randomized] returns exactly when both answers are 0 or 1, so with a
    generator that honours its contract it does return. *)
Theorem Randomized_roundtrip (makeGrothProof : bool)
    (joinSplitPubKey anchor : uint256) (inputs : list JSInput)
    (outputs : list JSOutput) (vpub_old vpub_new : CAmount)
    (computeProof : bool) (g : G) :
  length inputs = ZC_NUM_JS_INPUTS ->
  length outputs = ZC_NUM_JS_OUTPUTS ->
  let a := gen 2 g in
  let b := gen 2 (snd a) in
  let run := Randomized gen prove makeGrothProof joinSplitPubKey anchor inputs
               outputs vpub_old vpub_new computeProof g in
  (forall r, run = Some r ->
     r_inputs r ≡ₚ inputs /\ r_outputs r ≡ₚ outputs /\
     r_inputMap r ≡ₚ [0%N; 1%N] /\ r_outputMap r ≡ₚ [0%N; 1%N] /\
     (forall i k, r_inputMap r !! i = Some k ->
        r_inputs r !! i = inputs !! N.to_nat k) /\
     (forall i k, r_outputMap r !! i = Some k ->
        r_outputs r !! i = outputs !! N.to_nat k) /\
     unshuffle (r_inputs r) (r_inputMap r) = Some inputs /\
     unshuffle (r_outputs r) (r_outputMap r) = Some outputs /\
     r_inputs r = (if decide (fst a = 0) then reverse inputs else inputs) /\
     r_inputMap r = (if decide (fst a = 0) then [1%N; 0%N] else [0%N; 1%N]) /\
     r_outputs r = (if decide (fst b = 0) then reverse outputs else outputs) /\
     r_outputMap r = (if decide (fst b = 0) then [1%N; 0%N] else [0%N; 1%N]) /\
     r_gen r = snd b /\
     r_js r = prove makeGrothProof joinSplitPubKey anchor (r_inputs r)
                (r_outputs r) vpub_old vpub_new computeProof) /\
  (is_Some run <-> (fst a = 0 \/ fst a = 1) /\ (fst b = 0 \/ fst b = 1)) /\
  (gen_in_range gen -> is_Some run).
Proof.
  intros Hin Hout a b run.
  destruct inputs as [| x [| y [| ? ?]]]; try discriminate Hin.
  destruct outputs as [| u [| v [| ? ?]]]; try discriminate Hout.
  assert (Hrun : run
    = match MappedShuffle gen [x; y] [0%N; 1%N] 2 g with
      | Some (ins, imap, g1) =>
          match MappedShuffle gen [u; v] [0%N; 1%N] 2 g1 with
          | Some (outs, omap, g2) =>
              Some (mkRandomized G JSInput JSOutput
                      (prove makeGrothProof joinSplitPubKey anchor ins outs
                         vpub_old vpub_new computeProof)
                      ins outs imap omap g2)
          | None => None
          end
      | None => None
      end) by reflexivity.
  assert (Hiff : is_Some run
                 <-> (fst a = 0 \/ fst a = 1) /\ (fst b = 0 \/ fst b = 1)).
  { rewrite Hrun, MappedShuffle_two. fold a.
    destruct (decide (fst a = 0)) as [Ha | Ha];
      [| destruct (decide (fst a = 1)) as [Ha1 | Ha1]];
      simpl; rewrite ?MappedShuffle_two; fold b;
      try (destruct (decide (fst b = 0)) as [Hb | Hb];
           [| destruct (decide (fst b = 1)) as [Hb1 | Hb1]]); simpl;
      (split;
       [intros [? Hs]; try discriminate Hs; tauto
       | intros [? ?]; try tauto; eauto]). }
  split; [| split; [exact Hiff |]].
  - intros r Hr. rewrite Hrun in Hr.
    destruct (MappedShuffle gen [x; y] [0%N; 1%N] 2 g)
      as [[[ins imap] g1] |] eqn:Hi; [| done]. simpl in Hr.
    destruct (MappedShuffle gen [u; v] [0%N; 1%N] 2 g1)
      as [[[outs omap] g2] |] eqn:Ho; [| done]. simpl in Hr.
    injection Hr as <-. simpl.
    destruct (MappedShuffle_records [x; y] g ins imap g1 Hi)
      as (Hpi & Hmi & Hli & Hui).
    destruct (MappedShuffle_records [u; v] g1 outs omap g2 Ho)
      as (Hpo & Hmo & Hlo & Huo).
    do 8 (split; [done |]).
    rewrite MappedShuffle_two in Hi. fold a in Hi.
    assert (Hg1 : g1 = snd a /\
                  ins = (if decide (fst a = 0) then [y; x] else [x; y]) /\
                  imap = (if decide (fst a = 0) then [1%N; 0%N]
                          else [0%N; 1%N])).
    { destruct (decide (fst a = 0)); [by injection Hi as <- <- <- |].
      destruct (decide (fst a = 1)); [by injection Hi as <- <- <- | done]. }
    destruct Hg1 as (-> & -> & ->).
    rewrite MappedShuffle_two in Ho. fold b in Ho.
    assert (Hg2 : g2 = snd b /\
                  outs = (if decide (fst b = 0) then [v; u] else [u; v]) /\
                  omap = (if decide (fst b = 0) then [1%N; 0%N]
                          else [0%N; 1%N])).
    { destruct (decide (fst b = 0)); [by injection Ho as <- <- <- |].
      destruct (decide (fst b = 1)); [by injection Ho as <- <- <- | done]. }
    destruct Hg2 as (-> & -> & ->).
    done.
  - intros Hgen. apply Hiff.
    pose proof (Hgen 2 g ltac:(lia)) as Ha.
    pose proof (Hgen 2 (snd a) ltac:(lia)) as Hb.
    fold a in Ha. fold b in Hb. lia.
Qed.

End Randomized.

End ShuffleFacts.

(** ** The size a record counts for *)

Section ModifiedSizeFacts.

Variable CalculateSize : CTransaction -> Z.

Lemma input_offset_bounds (txin : CTxIn) : 41 <= input_offset txin <= 151.
Proof.
  unfold input_offset, to_uint.
  pose proof (Z.mod_pos_bound (Z.of_nat (length (scriptSig txin))) (2 ^ 32)
                ltac:(lia)).
  lia.
Qed.

Lemma CalculateModifiedSize_loop_bounds (vin : list CTxIn) :
  forall start,
    CalculateModifiedSize_loop vin start <= start /\
    (0 < start -> 0 < CalculateModifiedSize_loop vin start) /\
    start - 151 * Z.of_nat (length vin) <= CalculateModifiedSize_loop vin start.
Proof.
  induction vin as [| txin vin IH]; intros start; simpl; [lia |].
  fold (input_offset txin). pose proof (input_offset_bounds txin) as Hoff.
  destruct (Z.ltb_spec (input_offset txin) start) as [Hlt | Hge].
  - destruct (IH (start - input_offset txin)) as (Hle & Hpos & Hlow). lia.
  - destruct (IH start) as (Hle & Hpos & Hlow). lia.
Qed.

(** X1.  [CalculateModifiedSize] never enlarges the size it starts from (the
    size given, or [CalculateSize()] when 0 is given), never brings a
    positive size down to 0, and takes off at most 151 bytes per input. *)
Theorem CalculateModifiedSize_bounds (tx : CTransaction) (nTxSize : Z) :
  let start := if nTxSize =? 0 then CalculateSize tx else nTxSize in
  CalculateModifiedSize CalculateSize tx nTxSize <= start /\
  (0 < start -> 0 < CalculateModifiedSize CalculateSize tx nTxSize) /\
  start - 151 * Z.of_nat (length (vin tx))
    <= CalculateModifiedSize CalculateSize tx nTxSize.
Proof.
  unfold CalculateModifiedSize. apply CalculateModifiedSize_loop_bounds.
Qed.

Lemma CalculateModifiedSize_loop_exact (vin : list CTxIn) :
  forall start,
    sum_amounts input_offset vin < start ->
    CalculateModifiedSize_loop vin start
    = start - sum_amounts input_offset vin.
Proof.
  induction vin as [| txin vin IH]; intros start; simpl; [lia |].
  fold (input_offset txin). pose proof (input_offset_bounds txin) as Hoff.
  intros Hsum.
  assert (Hnn : 0 <= sum_amounts input_offset vin).
  { clear. induction vin as [| t vin IH]; simpl; [lia |].
    pose proof (input_offset_bounds t). lia. }
  destruct (Z.ltb_spec (input_offset txin) start) as [Hlt | Hge]; [| lia].
  rewrite IH by lia. lia.
Qed.

(** X2.  When the size a record starts from exceeds the bytes its inputs do
    not count for (41 bytes and up to 110 bytes of script for each), every
    input is discounted and [CalculateModifiedSize] is the size less that
    total; a record without inputs keeps its size. *)
Theorem CalculateModifiedSize_exact (tx : CTransaction) (nTxSize : Z) :
  nTxSize <> 0 ->
  sum_amounts input_offset (vin tx) < nTxSize ->
  CalculateModifiedSize CalculateSize tx nTxSize
  = nTxSize - sum_amounts input_offset (vin tx).
Proof.
  intros Hnz Hsum. unfold CalculateModifiedSize.
  destruct (Z.eqb_spec nTxSize 0); [done |].
  by apply CalculateModifiedSize_loop_exact.
Qed.

End ModifiedSizeFacts.

(** ** Value queries and the checks *)

Section QueryFacts.

Variable MAX_MONEY : CAmount.
Hypothesis MAX_MONEY_int64 : MAX_MONEY <= INT64_MAX.

Lemma checked_sum_Some {A : Type} (f : A -> CAmount) (l : list A) (v : CAmount) :
  checked_sum MAX_MONEY f l 0 = Some v <->
  sums_in_range MAX_MONEY f 0 l /\ v = sum_amounts f l.
Proof.
  destruct (checked_sum_spec MAX_MONEY MAX_MONEY_int64 f l 0 ltac:(lia) int64_0)
    as [Hok Hbad].
  rewrite <- (running_ok_sums MAX_MONEY f l 0) by lia.
  destruct (running_ok_dec MAX_MONEY f l 0) as [Hr | Hr].
  - rewrite (Hok Hr), Z.add_0_l. split; [intros [= <-]; done |].
    intros [_ ->]. done.
  - rewrite (Hbad Hr). split; [done | tauto].
Qed.

(** X3.  [CTransactionBase::GetValueOut] returns exactly when every output
    amount and every running sum of the amounts lie in [[0, MAX_MONEY]], and
    it then returns the sum of the amounts, which is not negative and, for a
    record with outputs, not above [MAX_MONEY]; in every other case it
    throws. *)
Theorem CTransactionBase_GetValueOut_returns (tx : CTransaction) :
  (forall v, CTransactionBase_GetValueOut MAX_MONEY tx = Some v <->
     sums_in_range MAX_MONEY nValue 0 (GetVout tx) /\
     v = sum_amounts nValue (GetVout tx)) /\
  (~ sums_in_range MAX_MONEY nValue 0 (GetVout tx) ->
     CTransactionBase_GetValueOut MAX_MONEY tx = None) /\
  (forall v, CTransactionBase_GetValueOut MAX_MONEY tx = Some v ->
     0 <= v /\ (GetVout tx <> [] -> v <= MAX_MONEY)).
Proof.
  unfold CTransactionBase_GetValueOut.
  assert (Hiff : forall v, GetValueOut_vout MAX_MONEY (GetVout tx) 0 = Some v <->
            sums_in_range MAX_MONEY nValue 0 (GetVout tx) /\
            v = sum_amounts nValue (GetVout tx)).
  { intros v. rewrite GetValueOut_vout_checked. apply checked_sum_Some. }
  split; [exact Hiff |]. split.
  - intros Hnot.
    destruct (GetValueOut_vout MAX_MONEY (GetVout tx) 0) as [v |] eqn:Hv;
      [| done].
    destruct (proj1 (Hiff v) eq_refl). tauto.
  - intros v Hv. apply Hiff in Hv. destruct Hv as [Hsums ->].
    apply running_ok_sums in Hsums; [| lia].
    destruct (running_ok_total MAX_MONEY nValue (GetVout tx) 0 ltac:(lia)
                Hsums) as [Hnn Hle].
    split; [done |]. intros Hne. specialize (Hle Hne). lia.
Qed.

(** X4.  [GetJoinSplitValueIn] returns exactly on the records that
    [CheckInputsAmount] accepts, whatever the validation state, and it then
    returns the sum of the [vpub_new]: the query throws on a record if and
    only if the check rejects it. *)
Theorem GetJoinSplitValueIn_iff_CheckInputsAmount (tx : CTransaction)
    (st : CValidationState) :
  (is_Some (GetJoinSplitValueIn MAX_MONEY tx) <->
     fst (CheckInputsAmount MAX_MONEY tx st) = true) /\
  (forall v, GetJoinSplitValueIn MAX_MONEY tx = Some v ->
     v = sum_amounts vpub_new (vjoinsplit tx)).
Proof.
  unfold GetJoinSplitValueIn, CheckInputsAmount, GetVjoinsplit.
  rewrite GetJoinSplitValueIn_checked.
  destruct (checked_sum_spec MAX_MONEY MAX_MONEY_int64 vpub_new
              (vjoinsplit tx) 0 ltac:(lia) int64_0) as [Hok Hbad].
  destruct (CheckInputsAmount_loop_spec MAX_MONEY MAX_MONEY_int64
              (vjoinsplit tx) 0 st ltac:(lia) int64_0) as [Hok' Hbad'].
  destruct (running_ok_dec MAX_MONEY vpub_new (vjoinsplit tx) 0) as [Hr | Hr].
  - rewrite (Hok Hr), (Hok' Hr). simpl. split; [by split |].
    intros v [= <-]. lia.
  - rewrite (Hbad Hr), (Hbad' Hr). simpl. split; [| done].
    split; [intros [? ?]; done | done].
Qed.

Lemma CheckOutputsAmount_true_js (tx : CTransaction) (st : CValidationState) :
  fst (CheckOutputsAmount MAX_MONEY tx st) = true ->
  Forall (js_well_formed MAX_MONEY) (GetVjoinsplit tx).
Proof.
  unfold CheckOutputsAmount. intros Hres.
  destruct (running_ok_dec MAX_MONEY nValue (GetVout tx) 0) as [Hout | Hout].
  - pose proof (CheckOutputsAmount_vout_pass MAX_MONEY MAX_MONEY_int64
                  (GetVout tx) [] 0 st ltac:(lia) int64_0 Hout) as Hpass.
    rewrite app_nil_r in Hpass. rewrite Hpass in Hres. simpl in Hres.
    rewrite Z.add_0_l in Hres.
    destruct (running_ok_total MAX_MONEY nValue (GetVout tx) 0 ltac:(lia)
                Hout) as [Hnn Hle].
    assert (Hint : int64 (sum_amounts nValue (GetVout tx))).
    { destruct (GetVout tx) as [| o outs]; [apply int64_0 |].
      apply (in_range_int64 MAX_MONEY MAX_MONEY_int64). unfold in_range.
      specialize (Hle ltac:(done)). lia. }
    destruct (js_running_ok_dec MAX_MONEY (GetVjoinsplit tx)
                (sum_amounts nValue (GetVout tx))) as [Hjs | Hjs].
    + apply js_running_ok_pass in Hjs; [| done]. apply Hjs.
    + destruct (CheckOutputsAmount_joinsplit_spec MAX_MONEY MAX_MONEY_int64
                  (GetVjoinsplit tx) (sum_amounts nValue (GetVout tx)) st
                  Hnn Hint) as [_ Hbad].
      rewrite (Hbad Hjs) in Hres. done.
  - destruct (CheckOutputsAmount_vout_fail MAX_MONEY MAX_MONEY_int64
                (GetVout tx) 0 st ltac:(lia) int64_0 Hout)
      as (r & Hr & Hfalse).
    rewrite Hr in Hres. congruence.
Qed.

Lemma running_ok_total_iff {A : Type} (f : A -> CAmount) (l : list A) :
  Forall (fun x => in_range MAX_MONEY (f x)) l ->
  forall acc, 0 <= acc -> acc <= MAX_MONEY ->
    running_ok MAX_MONEY f acc l <-> acc + sum_amounts f l <= MAX_MONEY.
Proof.
  induction 1 as [| x l Hx Hall IH]; intros acc Hacc Hle; simpl.
  - split; [lia | done].
  - unfold in_range in Hx.
    assert (Hnn : 0 <= sum_amounts f l).
    { clear -Hall. induction Hall as [| y l Hy Hall IH]; simpl; [lia |].
      unfold in_range in Hy. lia. }
    split.
    + intros (_ & Hs & Hrest). apply IH in Hrest; lia.
    + intros Htot. split; [done |]. split; [lia |]. apply IH; lia.
Qed.

(** X5.  On a record that [CheckOutputsAmount] accepts, every [vpub_new] is
    already known to lie in [[0, MAX_MONEY]]; what [CheckInputsAmount] adds
    is the bound on their total: it accepts the record if and only if the sum
    of the [vpub_new] is at most [MAX_MONEY]. *)
Theorem CheckInputsAmount_after_CheckOutputsAmount (tx : CTransaction)
    (st st' : CValidationState) :
  0 <= MAX_MONEY ->
  fst (CheckOutputsAmount MAX_MONEY tx st) = true ->
  Forall (fun js => in_range MAX_MONEY (vpub_new js)) (GetVjoinsplit tx) /\
  (fst (CheckInputsAmount MAX_MONEY tx st') = true <->
     sum_amounts vpub_new (GetVjoinsplit tx) <= MAX_MONEY).
Proof.
  intros Hmax Hout. apply CheckOutputsAmount_true_js in Hout.
  assert (Hnew : Forall (fun js => in_range MAX_MONEY (vpub_new js))
                   (GetVjoinsplit tx)).
  { eapply Forall_impl; [exact Hout |]. intros js (_ & Hn & _). done. }
  split; [done |]. unfold CheckInputsAmount.
  destruct (CheckInputsAmount_loop_spec MAX_MONEY MAX_MONEY_int64
              (GetVjoinsplit tx) 0 st' ltac:(lia) int64_0) as [Hok Hbad].
  pose proof (running_ok_total_iff vpub_new (GetVjoinsplit tx) Hnew 0
                ltac:(lia) Hmax) as Htot.
  rewrite Z.add_0_l in Htot.
  destruct (running_ok_dec MAX_MONEY vpub_new (GetVjoinsplit tx) 0)
    as [Hr | Hr].
  - rewrite (Hok Hr). simpl. tauto.
  - rewrite (Hbad Hr). simpl. split; [done | tauto].
Qed.

End QueryFacts.

(** ** Inputs a view cannot resolve *)

Section ViewFacts.

Variable IsNull : COutPoint -> bool.

Lemma GetValueIn_vin_app (view : CCoinsViewCache) (pre rest : list CTxIn) :
  forall acc asked,
    Forall (fun txin => is_Some (view txin)) pre ->
    exists acc',
      GetValueIn_vin view (pre ++ rest) acc asked
      = GetValueIn_vin view rest acc' (asked ++ pre).
Proof.
  induction pre as [| txin pre IH]; intros acc asked Hall; simpl.
  - exists acc. by rewrite app_nil_r.
  - inversion Hall as [| ? ? [txout Hview] Hall']; subst.
    rewrite Hview.
    destruct (IH (add64 acc (nValue txout)) (asked ++ [txin]) Hall')
      as (acc' & Heq).
    exists acc'. rewrite Heq, <- app_assoc. done.
Qed.

(** X6.  For a record that is not a coinbase, [GetValueIn] asks the view for
    the inputs in order and stops at the first one the view cannot resolve:
    it fails there, having asked for that input and the ones before it and
    for none after it.  When the view resolves every input and
    [GetJoinSplitValueIn] throws, it fails after asking for all of them. *)
Theorem GetValueIn_unresolved (MAX_MONEY : CAmount) (tx : CTransaction)
    (view : CCoinsViewCache) :
  IsCoinBase IsNull tx = false ->
  (forall pre txin post, vin tx = pre ++ txin :: post ->
     Forall (fun txin => is_Some (view txin)) pre -> view txin = None ->
     GetValueIn MAX_MONEY IsNull tx view = (None, pre ++ [txin])) /\
  (Forall (fun txin => is_Some (view txin)) (vin tx) ->
     GetJoinSplitValueIn MAX_MONEY tx = None ->
     GetValueIn MAX_MONEY IsNull tx view = (None, vin tx)).
Proof.
  intros Hcb. unfold GetValueIn. rewrite Hcb. split.
  - intros pre txin post Hvin Hpre Hnone. rewrite Hvin.
    destruct (GetValueIn_vin_app view pre (txin :: post) 0 [] Hpre)
      as (acc' & Heq).
    rewrite Heq. simpl. by rewrite Hnone.
  - intros Hall Hjs.
    pose proof (GetValueIn_vin_resolved view (vin tx) 0 [] Hall) as Hres.
    rewrite (wrap64_id 0) in Hres
      by (unfold int64, INT64_MIN, INT64_MAX; lia).
    by rewrite Hres, Hjs.
Qed.

End ViewFacts.

(** ** Outputs of backward transfers *)

Section BackwardTransferFacts.

Variables OP_DUP OP_HASH160 OP_EQUALVERIFY OP_CHECKSIG : Byte.byte.
Variable push_data : list Byte.byte -> list Byte.byte.

Lemma find_byte_Some (value : Byte.byte) (script it : list Byte.byte) :
  find_byte value script = Some it <->
  exists pre rest, script = pre ++ value :: rest /\ it = value :: rest /\
                   value ∉ pre.
Proof.
  revert it. induction script as [| b script IH]; intros it; simpl.
  - split; [done |]. intros (pre & rest & Heq & _). by destruct pre.
  - destruct (decide (b = value)) as [-> | Hne].
    + split.
      * intros [= <-]. exists [], script. split; [done |].
        split; [done | apply not_elem_of_nil].
      * intros (pre & rest & Heq & -> & Hnotin).
        destruct pre as [| p pre]; simpl in Heq; [by injection Heq as -> |].
        injection Heq as -> _. exfalso. apply Hnotin. apply list_elem_of_here.
    + rewrite IH. split.
      * intros (pre & rest & -> & -> & Hnotin).
        exists (b :: pre), rest. split; [done |]. split; [done |].
        intros Hin. apply elem_of_cons in Hin. destruct Hin; [done | tauto].
      * intros (pre & rest & Heq & -> & Hnotin).
        destruct pre as [| p pre]; simpl in Heq;
          [injection Heq as -> _; done |].
        injection Heq as -> ->. exists pre, rest.
        split; [done |]. split; [done |].
        intros Hin. apply Hnotin. by apply list_elem_of_further.
Qed.

Lemma byte_is_20 (len : Byte.byte) :
  Z.of_N (Byte.to_N len) = Z.of_nat sizeof_uint160 <-> len = Byte.x14.
Proof.
  split; [| intros ->; reflexivity].
  destruct len; intros Hlen; vm_compute in Hlen; (discriminate || reflexivity).
Qed.

Lemma find_byte_first (value : Byte.byte) (pre rest : list Byte.byte) :
  value ∉ pre -> find_byte value (pre ++ value :: rest) = Some (value :: rest).
Proof. intros Hpre. apply find_byte_Some. by exists pre, rest. Qed.

Lemma find_byte_None (value : Byte.byte) (script : list Byte.byte) :
  find_byte value script = None <-> value ∉ script.
Proof.
  induction script as [| b script IH]; simpl.
  - split; [intros _; apply not_elem_of_nil | done].
  - rewrite not_elem_of_cons. destruct (decide (b = value)) as [-> | Hne].
    + split; [done | tauto].
    + rewrite IH. split; [by split | tauto].
Qed.

(** X8.  The constructor of [CBackwardTransferOut] builds its object exactly
    on the outputs whose script has, after its first [OP_HASH160], the byte 20
    and at least twenty more bytes; it then keeps the amount of the output
    and takes those twenty bytes as the key hash.  An assertion fails exactly
    when the script holds no [OP_HASH160], or the byte after the first one is
    not 20.  In the cases that remain, the first [OP_HASH160] ending the
    script or the byte 20 being followed by fewer than twenty bytes, the
    constructor reads past the end of the script. *)
Theorem CBackwardTransferOut_of_CTxOut_outcomes (txout : CTxOut) :
  (forall btout,
     CBackwardTransferOut_of_CTxOut OP_HASH160 txout = Built btout <->
     exists pre rest,
       scriptPubKey txout
       = pre ++ [OP_HASH160; Byte.x14] ++ pubKeyHash btout ++ rest /\
       (OP_HASH160 ∉ pre) /\
       length (pubKeyHash btout) = sizeof_uint160 /\
       bt_nValue btout = nValue txout) /\
  (CBackwardTransferOut_of_CTxOut OP_HASH160 txout = AssertionFailed <->
     (OP_HASH160 ∉ scriptPubKey txout) \/
     exists pre len rest,
       scriptPubKey txout = pre ++ OP_HASH160 :: len :: rest /\
       (OP_HASH160 ∉ pre) /\ len <> Byte.x14) /\
  (CBackwardTransferOut_of_CTxOut OP_HASH160 txout = PastTheEnd <->
     exists pre,
       (OP_HASH160 ∉ pre) /\
       (scriptPubKey txout = pre ++ [OP_HASH160] \/
        exists data,
          scriptPubKey txout = pre ++ [OP_HASH160; Byte.x14] ++ data /\
          (length data < sizeof_uint160)%nat)).
Proof.
  unfold CBackwardTransferOut_of_CTxOut.
  split; [| split].
  - intros btout. split.
    + destruct (find_byte OP_HASH160 (scriptPubKey txout)) as [it |] eqn:Hfind;
        [| done].
      apply find_byte_Some in Hfind.
      destruct Hfind as (pre & after & Hscript & -> & Hpre). simpl.
      rewrite drop_0. destruct after as [| len data]; [done |].
      destruct (decide (Z.of_N (Byte.to_N len) = Z.of_nat sizeof_uint160))
        as [Hlen | Hlen]; [| done].
      apply byte_is_20 in Hlen. subst len.
      destruct (Nat.ltb_spec (length data) sizeof_uint160) as [Hshort | Hlong];
        [done |].
      intros [= <-]. simpl. exists pre, (drop sizeof_uint160 data).
      rewrite take_drop. split; [by rewrite Hscript |].
      split; [done |]. split; [| done]. rewrite length_take. lia.
    + intros (pre & rest & Hscript & Hpre & Hpkh & Hval).
      rewrite Hscript. simpl. rewrite find_byte_first by done. simpl.
      destruct (Nat.ltb_spec (length (pubKeyHash btout ++ rest))
                  sizeof_uint160) as [Hshort | Hlong];
        [rewrite length_app in Hshort; lia |].
      rewrite take_app_length' by done.
      destruct btout as [v pkh]. simpl in *. by subst.
  - split.
    + destruct (find_byte OP_HASH160 (scriptPubKey txout)) as [it |] eqn:Hfind;
        [| intros _; left; by apply find_byte_None].
      apply find_byte_Some in Hfind.
      destruct Hfind as (pre & after & Hscript & -> & Hpre). simpl.
      rewrite drop_0. destruct after as [| len data]; [done |].
      destruct (decide (Z.of_N (Byte.to_N len) = Z.of_nat sizeof_uint160))
        as [Hlen | Hlen].
      * by destruct (length data <? sizeof_uint160)%nat.
      * intros _. right. exists pre, len, data.
        split; [done |]. split; [done |]. intros ->. by apply Hlen.
    + intros [Hnotin | (pre & len & rest & Hscript & Hpre & Hlen)].
      * apply find_byte_None in Hnotin. by rewrite Hnotin.
      * rewrite Hscript, find_byte_first by done. simpl. rewrite ?drop_0.
        rewrite decide_False; [done |]. by rewrite byte_is_20.
  - split.
    + destruct (find_byte OP_HASH160 (scriptPubKey txout)) as [it |] eqn:Hfind;
        [| done].
      apply find_byte_Some in Hfind.
      destruct Hfind as (pre & after & Hscript & -> & Hpre). simpl.
      rewrite drop_0. exists pre. split; [done |].
      destruct after as [| len data]; [by left |].
      destruct (decide (Z.of_N (Byte.to_N len) = Z.of_nat sizeof_uint160))
        as [Hlen | Hlen]; [| done].
      apply byte_is_20 in Hlen. subst len.
      destruct (Nat.ltb_spec (length data) sizeof_uint160) as [Hshort | Hlong];
        [| done].
      right. by exists data.
    + intros (pre & Hpre & [Hscript | (data & Hscript & Hshort)]).
      * rewrite Hscript, find_byte_first by done. done.
      * rewrite Hscript. simpl. rewrite find_byte_first by done. simpl.
        by destruct (Nat.ltb_spec (length data) sizeof_uint160); [| lia].
Qed.

(** X7.  Round trip: when pushing the twenty bytes of a key hash onto a
    script writes the byte 20 and then the hash, and [OP_DUP] differs from
    [OP_HASH160], the output built from a [CBackwardTransferOut] gives that
    same [CBackwardTransferOut] back; it is marked as coming from a backward
    transfer and carries its amount. *)
Theorem CBackwardTransferOut_roundtrip (btout : CBackwardTransferOut) :
  OP_DUP <> OP_HASH160 ->
  length (pubKeyHash btout) = sizeof_uint160 ->
  push_data (pubKeyHash btout) = Byte.x14 :: pubKeyHash btout ->
  CBackwardTransferOut_of_CTxOut OP_HASH160
    (CTxOut_of_CBackwardTransferOut OP_DUP OP_HASH160 OP_EQUALVERIFY
       OP_CHECKSIG push_data btout)
  = Built btout /\
  isFromBackwardTransfer
    (CTxOut_of_CBackwardTransferOut OP_DUP OP_HASH160 OP_EQUALVERIFY
       OP_CHECKSIG push_data btout) = true /\
  nValue
    (CTxOut_of_CBackwardTransferOut OP_DUP OP_HASH160 OP_EQUALVERIFY
       OP_CHECKSIG push_data btout) = bt_nValue btout.
Proof.
  intros Hops Hlen Hpush. split; [| done].
  unfold CBackwardTransferOut_of_CTxOut, CTxOut_of_CBackwardTransferOut.
  simpl. rewrite Hpush. simpl.
  rewrite decide_False by done. rewrite decide_True by done. simpl.
  rewrite length_app, Hlen. simpl.
  rewrite take_app_length' by done. by destruct btout.
Qed.

End BackwardTransferFacts.

(** ** The wallet *)

Section WalletFacts.

Ltac cases_N :=
  repeat match goal with
    | |- context [(?x <? ?y)%N] => destruct (N.ltb_spec x y)
    | |- context [(?x =? ?y)%N] => destruct (N.eqb_spec x y)
    end.

(** X9.  [operator<] on [JSOutPoint] is a strict total order that agrees
    with [operator==]: no key is below itself, the order is transitive, two
    keys neither of which is below the other are equal for [operator==], and
    [operator==] holds exactly for keys with the same three fields.  So the
    keys of a [mapNoteData_t] are told apart exactly by hash, joinsplit index
    and output index. *)
Theorem JSOutPoint_lt_strict_total (a b c : JSOutPoint) :
  JSOutPoint_lt a a = false /\
  (JSOutPoint_lt a b = true -> JSOutPoint_lt b c = true ->
   JSOutPoint_lt a c = true) /\
  negb (JSOutPoint_lt a b) && negb (JSOutPoint_lt b a) = JSOutPoint_eq a b /\
  (JSOutPoint_eq a b = true <-> a = b) /\
  JSOutPoint_ne a b = negb (JSOutPoint_eq a b).
Proof.
  destruct a as [ha ja na], b as [hb jb nb], c as [hc jc nc].
  unfold JSOutPoint_ne, JSOutPoint_lt, JSOutPoint_eq. simpl.
  split; [cases_N; simpl; (reflexivity || lia) |].
  split; [cases_N; simpl; intros; (reflexivity || discriminate || lia) |].
  split; [cases_N; simpl; (reflexivity || lia) |].
  split; [| reflexivity].
  cases_N; simpl; split; intros Heq; try discriminate; try congruence.
Qed.

Section OrderPosFacts.

Variable atoi64 : string -> Z.
Variable i64tostr : Z -> string.

(** X10.  Round trip of the order position through a value map: a position
    other than -1 that [WriteOrderPos] stores is what [ReadOrderPos] reads
    back, given that [atoi64] reads back what [i64tostr] printed for it.  The
    position -1 is not stored: the map is left as it is, so that reading
    gives -1 from a map without the key "n" and otherwise whatever the
    map held under it.  No other key of the map is touched. *)
Theorem OrderPos_roundtrip (nOrderPos : Z) (mapValue : gmap string string) :
  (nOrderPos <> -1 -> atoi64 (i64tostr nOrderPos) = nOrderPos ->
     ReadOrderPos atoi64 (WriteOrderPos i64tostr nOrderPos mapValue)
     = nOrderPos) /\
  WriteOrderPos i64tostr (-1) mapValue = mapValue /\
  (mapValue !! "n" = None -> ReadOrderPos atoi64 mapValue = -1) /\
  (forall s, mapValue !! "n" = Some s ->
     ReadOrderPos atoi64 (WriteOrderPos i64tostr (-1) mapValue) = atoi64 s) /\
  (forall k, k <> "n" ->
     WriteOrderPos i64tostr nOrderPos mapValue !! k = mapValue !! k).
Proof.
  unfold ReadOrderPos, WriteOrderPos.
  split; [| split; [done | split; [by intros -> | split]]].
  - intros Hne Hcodec. destruct (Z.eqb_spec nOrderPos (-1)); [done |].
    by rewrite lookup_insert_eq.
  - intros s Hs. simpl. by rewrite Hs.
  - intros k Hk. destruct (Z.eqb_spec nOrderPos (-1)); [done |].
    by rewrite lookup_insert_ne.
Qed.

End OrderPosFacts.

Lemma wrap32_id (z : Z) : - 2 ^ 31 <= z < 2 ^ 31 -> wrap32 z = z.
Proof. intros Hz. unfold wrap32. rewrite Z.mod_small; lia. Qed.

(** X12.  [Inventory] counts a request only for a hash the wallet already
    follows: it never adds a key to [mapRequestCount], leaves the map as it
    is for an unknown hash, leaves the counts of all other hashes alone and,
    for a known hash, adds one to its count. *)
Theorem Inventory_counts (hash : uint256) (mapRequestCount : gmap uint256 Z) :
  dom (Inventory hash mapRequestCount) = dom mapRequestCount /\
  (mapRequestCount !! hash = None ->
     Inventory hash mapRequestCount = mapRequestCount) /\
  (forall count, mapRequestCount !! hash = Some count ->
     - 2 ^ 31 <= count < 2 ^ 31 - 1 ->
     Inventory hash mapRequestCount !! hash = Some (count + 1)) /\
  (forall other, other <> hash ->
     Inventory hash mapRequestCount !! other = mapRequestCount !! other).
Proof.
  unfold Inventory.
  destruct (mapRequestCount !! hash) as [count |] eqn:Hcount.
  - split; [| split; [done | split]].
    + rewrite dom_insert_L. apply elem_of_dom_2 in Hcount.
      apply set_eq. intros x. rewrite elem_of_union, elem_of_singleton.
      split; [intros [-> | ?]; done | tauto].
    + intros c [= <-] Hc. rewrite lookup_insert_eq.
      by rewrite wrap32_id by lia.
    + intros other Hne. by rewrite lookup_insert_ne.
  - split; [done |]. split; [done |]. split; [done | done].
Qed.

Lemma load_versions_snoc (vs : list Z) (v : Z) :
  load_versions (vs ++ [v])
  = mkWalletVersions v (Z.max (nWalletMaxVersion (load_versions vs)) v).
Proof. unfold load_versions. by rewrite foldl_app. Qed.

(** X13.  From [SetNull], after any series of [LoadMinVersion], the wallet
    version does not exceed the maximal version, the maximal version is at
    least every version loaded (it never goes down), [FEATURE_BASE] is
    supported, and a feature is supported exactly when its number is at most
    that of [FEATURE_BASE] or at most one of the versions loaded. *)
Theorem LoadMinVersion_invariant (vs : list Z) :
  nWalletVersion (load_versions vs) <= nWalletMaxVersion (load_versions vs) /\
  (forall v, v ∈ vs -> v <= nWalletMaxVersion (load_versions vs)) /\
  CanSupportFeature FEATURE_BASE (load_versions vs) = true /\
  (forall wf, CanSupportFeature wf (load_versions vs) = true <->
     WalletFeature_value wf <= WalletFeature_value FEATURE_BASE \/
     exists v, v ∈ vs /\ WalletFeature_value wf <= v).
Proof.
  assert (Hmax : WalletFeature_value FEATURE_BASE
                 <= nWalletMaxVersion (load_versions vs) /\
                 (forall v, v ∈ vs -> v <= nWalletMaxVersion (load_versions vs)) /\
                 (nWalletMaxVersion (load_versions vs)
                  = WalletFeature_value FEATURE_BASE \/
                  nWalletMaxVersion (load_versions vs) ∈ vs) /\
                 nWalletVersion (load_versions vs)
                 <= nWalletMaxVersion (load_versions vs)).
  { induction vs as [| v vs IH] using rev_ind.
    - simpl. split; [lia |]. split; [| split; [by left | lia]].
      intros v Hv. by apply elem_of_nil in Hv.
    - destruct IH as (Hbase & Hall & Hin & Hle).
      rewrite load_versions_snoc. simpl in *. split; [lia |]. split; [| split].
      + intros w Hw. apply elem_of_app in Hw. destruct Hw as [Hw | Hw].
        * specialize (Hall w Hw). lia.
        * apply list_elem_of_singleton in Hw. lia.
      + destruct (Z.max_spec (nWalletMaxVersion (load_versions vs)) v)
          as [[_ ->] | [_ ->]].
        * right. apply elem_of_app. right. by apply list_elem_of_singleton.
        * destruct Hin as [-> | Hin]; [by left |].
          right. apply elem_of_app. by left.
      + lia. }
  destruct Hmax as (Hbase & Hall & Hin & Hle).
  split; [done |]. split; [done |].
  unfold CanSupportFeature. split; [apply Z.geb_le; lia |].
  intros wf. rewrite Z.geb_le. split.
  - intros Hwf. destruct Hin as [Heq | Hin]; [left; lia |].
    right. by exists (nWalletMaxVersion (load_versions vs)).
  - intros [Hwf | (v & Hv & Hwf)]; [lia |]. specialize (Hall v Hv). lia.
Qed.

Section SetBestChainFacts.

Context {D W L : Type}.
Variable walletdb : WalletDB D W L.

Lemma db_do_log (c : db_call W L) (st : db_log) :
  snd (snd (db_do walletdb c st))
  = snd st ++ [(c, fst (db_do walletdb c st))].
Proof.
  unfold db_do.
  by destruct c;
    match goal with |- context [let (_, _) := ?x in _] => destruct x end.
Qed.

Lemma SetBestChain_txs_run (mapWallet : list (uint256 * W)) :
  forall st,
    SetBestChain_txs walletdb mapWallet st
    = run_writes walletdb
        (map (fun wtxItem => WriteTx (fst wtxItem) (snd wtxItem)) mapWallet)
        st.
Proof.
  induction mapWallet as [| wtxItem rest IH]; intros st; simpl; [done |].
  destruct (write_or_abort walletdb (WriteTx (fst wtxItem) (snd wtxItem)) st)
    as [[| |] st']; [apply IH | done | done].
Qed.

Lemma run_writes_app (cs1 cs2 : list (db_call W L)) :
  forall st,
    run_writes walletdb (cs1 ++ cs2) st
    = match run_writes walletdb cs1 st with
      | (Completed, st') => run_writes walletdb cs2 st'
      | stop => stop
      end.
Proof.
  induction cs1 as [| c cs1 IH]; intros st; simpl.
  - by destruct (run_writes walletdb cs2 st) as [[| |] ?].
  - destruct (write_or_abort walletdb c st) as [[| |] st'];
      [apply IH | done | done].
Qed.

Lemma SetBestChain_try_run (mapWallet : list (uint256 * W))
    (nWitnessCacheSize : Z) (loc : L) (st : db_log) :
  SetBestChain_try walletdb mapWallet nWitnessCacheSize loc st
  = run_writes walletdb (best_chain_writes mapWallet nWitnessCacheSize loc) st.
Proof.
  unfold SetBestChain_try, best_chain_writes.
  rewrite run_writes_app, SetBestChain_txs_run.
  destruct (run_writes walletdb _ st) as [[| |] st1]; [| done | done].
  simpl.
  destruct (write_or_abort walletdb (WriteWitnessCacheSize nWitnessCacheSize)
              st1) as [[| |] st2]; [| done | done].
  by destruct (write_or_abort walletdb (WriteBestBlock loc) st2)
    as [[| |] st3].
Qed.

(** One write: answered [true]; or answered [false], with [TxnAbort] after
    it; or an exception, of the write or of the [TxnAbort] after it. *)
Lemma write_or_abort_trace (c : db_call W L) (st : db_log) :
  match write_or_abort walletdb c st with
  | (Completed, st') => snd st' = snd st ++ [(c, Yes)]
  | (Returned, st') =>
      exists r, (r = Yes \/ r = No) /\
        snd st' = snd st ++ [(c, No); (TxnAbort, r)]
  | (Thrown e, st') =>
      snd st' = snd st ++ [(c, Threw e)] \/
      snd st' = snd st ++ [(c, No); (TxnAbort, Threw e)]
  end.
Proof.
  unfold write_or_abort.
  pose proof (db_do_log c st) as Hc.
  destruct (db_do walletdb c st) as [r st1]. simpl in Hc.
  destruct r as [| | e]; [done | | by left].
  unfold abort_and_return.
  pose proof (db_do_log TxnAbort st1) as Ha.
  destruct (db_do walletdb TxnAbort st1) as [r st2]. simpl in Ha.
  rewrite Hc, <- app_assoc in Ha. simpl in Ha.
  destruct r as [| | e]; [exists Yes | exists No | right]; auto.
Qed.

(** The calls of a series of writes: all of them answered [true]; or the
    first ones did, one answered [false] and [TxnAbort] followed; or the
    first ones did and an exception came, from a write or from the [TxnAbort]
    after a write that answered [false]. *)
Lemma run_writes_trace (cs : list (db_call W L)) :
  forall st,
    match run_writes walletdb cs st with
    | (Completed, st') => snd st' = snd st ++ map (fun c => (c, Yes)) cs
    | (Returned, st') =>
        exists (k : nat) c r,
          cs !! k = Some c /\ (r = Yes \/ r = No) /\
          snd st' = snd st ++ map (fun c => (c, Yes)) (take k cs)
                           ++ [(c, No); (TxnAbort, r)]
    | (Thrown e, st') =>
        exists (k : nat) c,
          cs !! k = Some c /\
          (snd st' = snd st ++ map (fun c => (c, Yes)) (take k cs)
                            ++ [(c, Threw e)] \/
           snd st' = snd st ++ map (fun c => (c, Yes)) (take k cs)
                            ++ [(c, No); (TxnAbort, Threw e)])
    end.
Proof.
  induction cs as [| c cs IH]; intros st; simpl; [by rewrite app_nil_r |].
  pose proof (write_or_abort_trace c st) as Hw.
  destruct (write_or_abort walletdb c st) as [[| | e] st1].
  - specialize (IH st1).
    destruct (run_writes walletdb cs st1) as [[| | e] st2].
    + rewrite IH, Hw, <- app_assoc. done.
    + destruct IH as (k & c' & r & Hk & Hr & Htr).
      exists (S k), c', r. split; [done |]. split; [done |].
      rewrite Htr, Hw, <- app_assoc. done.
    + destruct IH as (k & c' & Hk & Htr).
      exists (S k), c'. split; [done |].
      rewrite Hw, <- !app_assoc in Htr. simpl. tauto.
  - destruct Hw as (r & Hr & Hw). exists 0%nat, c, r. done.
  - exists 0%nat, c. done.
Qed.

(** X11.  The calls [SetBestChainINTERNAL] makes on the database take one of
    six courses, and it ends by returning unless its last call threw.
    [TxnBegin] does not answer [true]: nothing else is called.  Or [TxnBegin]
    and every write (each wallet entry in order, the witness cache size, the
    best block) answer [true], and [TxnCommit] ends the series.  Or the
    writes answer [true] up to one that answers [false]: [TxnAbort] follows
    and ends the series, unless it throws a [std::exception], which the
    handler takes, calling [TxnAbort] a second time.  Or the writes answer
    [true] up to one that throws a [std::exception]: [TxnAbort] follows and
    ends the series.  Or the writes answer [true] up to one that throws
    something else: that leaves the function with neither [TxnAbort] nor
    [TxnCommit] called.  After a write that did not answer [true] no further
    write is attempted and [TxnCommit] is not called. *)
Theorem SetBestChainINTERNAL_trace (mapWallet : list (uint256 * W))
    (nWitnessCacheSize : Z) (loc : L) (s : D) :
  let writes := best_chain_writes mapWallet nWitnessCacheSize loc in
  let how :=
    fst (SetBestChainINTERNAL walletdb mapWallet nWitnessCacheSize loc s) in
  let calls :=
    snd (snd (SetBestChainINTERNAL walletdb mapWallet nWitnessCacheSize loc
                s)) in
  let begun (k : nat) :=
    (TxnBegin, Yes) :: map (fun c => (c, Yes)) (take k writes) in
  (exists r, r <> Yes /\ calls = [(TxnBegin, r)] /\ how = ending_of r) \/
  (exists r,
     calls = (TxnBegin, Yes) :: map (fun c => (c, Yes)) writes
             ++ [(TxnCommit, r)] /\
     how = ending_of r) \/
  (exists (k : nat) c r,
     writes !! k = Some c /\ r <> Threw StdException /\
     calls = begun k ++ [(c, No); (TxnAbort, r)] /\ how = ending_of r) \/
  (exists (k : nat) c r,
     writes !! k = Some c /\
     calls = begun k ++ [(c, No); (TxnAbort, Threw StdException);
                         (TxnAbort, r)] /\
     how = ending_of r) \/
  (exists (k : nat) c r,
     writes !! k = Some c /\
     calls = begun k ++ [(c, Threw StdException); (TxnAbort, r)] /\
     how = ending_of r) \/
  (exists (k : nat) c,
     writes !! k = Some c /\
     calls = begun k ++ [(c, Threw OtherException)] /\
     how = Thrown OtherException).
Proof.
  intros writes how calls begun. subst how calls begun.
  unfold SetBestChainINTERNAL.
  pose proof (db_do_log TxnBegin (s, [])) as Hb.
  destruct (db_do walletdb TxnBegin (s, [])) as [r st0]. simpl in Hb.
  destruct r as [| | e];
    [| left; by exists No | left; by exists (Threw e)].
  right. rewrite SetBestChain_try_run. fold writes.
  pose proof (run_writes_trace writes st0) as Htr. rewrite Hb in Htr.
  destruct (run_writes walletdb writes st0) as [[| | [|]] st1].
  - left. pose proof (db_do_log TxnCommit st1) as Hc.
    destruct (db_do walletdb TxnCommit st1) as [r st2]. simpl in Hc.
    exists r. by destruct r; simpl; rewrite Hc, Htr.
  - right. left. destruct Htr as (k & c & r & Hk & Hr & Htr).
    exists k, c, r. split; [done |].
    split; [by destruct Hr as [-> | ->] |].
    split; [done |]. by destruct Hr as [-> | ->].
  - destruct Htr as (k & c & Hk & [Htr | Htr]).
    + do 3 right. left.
      unfold abort_and_return. pose proof (db_do_log TxnAbort st1) as Ha.
      destruct (db_do walletdb TxnAbort st1) as [r st2]. simpl in Ha.
      exists k, c, r. split; [done |].
      by destruct r; simpl; rewrite Ha, Htr; simpl; rewrite <- app_assoc.
    + do 2 right. left.
      unfold abort_and_return. pose proof (db_do_log TxnAbort st1) as Ha.
      destruct (db_do walletdb TxnAbort st1) as [r st2]. simpl in Ha.
      exists k, c, r. split; [done |].
      by destruct r; simpl; rewrite Ha, Htr; simpl; rewrite <- app_assoc.
  - destruct Htr as (k & c & Hk & [Htr | Htr]).
    + do 4 right. exists k, c. done.
    + right. left. exists k, c, (Threw OtherException). done.
Qed.

End SetBestChainFacts.

End WalletFacts.

(** ** Wallet transactions on disk *)

Section WalletTxFacts.

Variable atoi64 : string -> Z.
Variable i64tostr : Z -> string.
Variable utostr : Z -> string.
Context {CMerkleTx mapNoteData_t CWallet : Type}.

Lemma erase_reserved_lookup (mapValue : gmap string string) (k : string) :
  erase_reserved mapValue !! k
  = if decide (k ∈ reserved_keys) then None else mapValue !! k.
Proof.
  unfold erase_reserved, reserved_keys. rewrite !lookup_delete.
  repeat case_decide; try done; subst; exfalso;
    repeat match goal with
      | H : ~ (_ ∈ _ :: _) |- _ => rewrite not_elem_of_cons in H; destruct H
      | H : _ ∈ _ :: _ |- _ => apply elem_of_cons in H; destruct H
      | H : _ ∈ [] |- _ => by apply elem_of_nil in H
      end; congruence.
Qed.

Lemma erase_reserved_insert (mapValue : gmap string string) (k v : string) :
  k ∈ reserved_keys ->
  erase_reserved (<[k := v]> mapValue) = erase_reserved mapValue.
Proof.
  intros Hk. apply map_eq. intros j. rewrite !erase_reserved_lookup.
  case_decide; [done |]. apply lookup_insert_ne. by intros ->.
Qed.

Lemma reserved_fromaccount : "fromaccount"%string ∈ reserved_keys.
Proof.
  unfold reserved_keys.
  repeat first [apply list_elem_of_here | apply list_elem_of_further].
Qed.

Lemma reserved_n : "n"%string ∈ reserved_keys.
Proof.
  unfold reserved_keys.
  repeat first [apply list_elem_of_here | apply list_elem_of_further].
Qed.

Lemma reserved_timesmart : "timesmart"%string ∈ reserved_keys.
Proof.
  unfold reserved_keys.
  repeat first [apply list_elem_of_here | apply list_elem_of_further].
Qed.

Lemma erase_reserved_WriteOrderPos (nOrderPos : Z)
    (mapValue : gmap string string) :
  erase_reserved (WriteOrderPos i64tostr nOrderPos mapValue)
  = erase_reserved mapValue.
Proof.
  unfold WriteOrderPos. destruct (nOrderPos =? -1); [done |].
  apply erase_reserved_insert, reserved_n.
Qed.

(** X15.  Writing a wallet transaction to a stream changes one thing in the
    object: [mapValue] loses the five keys that [SerializationOp] keeps for
    itself ("fromaccount", "version", "spent", "n", "timesmart") and keeps
    every other key with its value.  An object read from a stream has none of
    the five keys either. *)
Theorem CWalletTx_Serialize_object
    (wtx : CWalletTx CMerkleTx mapNoteData_t CWallet)
    (stream : CWalletTx_stream CMerkleTx mapNoteData_t) :
  snd (CWalletTx_Serialize i64tostr utostr _ _ _ wtx)
  = with_persistent _ _ _ wtx (wtx_merkle _ _ _ wtx) (mapNoteData _ _ _ wtx)
      (erase_reserved (mapValue _ _ _ wtx)) (vOrderForm _ _ _ wtx)
      (fTimeReceivedIsTxTime _ _ _ wtx) (nTimeReceived _ _ _ wtx)
      (nTimeSmart _ _ _ wtx) (fFromMe _ _ _ wtx) (strFromAccount _ _ _ wtx)
      (nOrderPos _ _ _ wtx) /\
  (forall k,
     mapValue _ _ _ (snd (CWalletTx_Serialize i64tostr utostr _ _ _ wtx)) !! k
     = if decide (k ∈ reserved_keys) then None
       else mapValue _ _ _ wtx !! k) /\
  (forall k, k ∈ reserved_keys ->
     mapValue _ _ _ (CWalletTx_Unserialize atoi64 _ _ _ wtx stream) !! k
     = None).
Proof.
  assert (Hvalues : mapValue _ _ _
            (snd (CWalletTx_Serialize i64tostr utostr _ _ _ wtx))
          = erase_reserved (mapValue _ _ _ wtx)).
  { unfold CWalletTx_Serialize. simpl.
    destruct (nTimeSmart _ _ _ wtx =? 0).
    - rewrite erase_reserved_WriteOrderPos.
      apply erase_reserved_insert, reserved_fromaccount.
    - rewrite erase_reserved_insert by apply reserved_timesmart.
      rewrite erase_reserved_WriteOrderPos.
      apply erase_reserved_insert, reserved_fromaccount. }
  split; [| split].
  - unfold CWalletTx_Serialize in *. simpl in *. unfold with_persistent in *.
    simpl in *. by rewrite Hvalues.
  - intros k. rewrite Hvalues. apply erase_reserved_lookup.
  - intros k Hk. unfold CWalletTx_Unserialize.
    destruct (subscript (s_mapValue _ _ stream) "fromaccount") as [from values].
    simpl. rewrite erase_reserved_lookup. by rewrite decide_True.
Qed.

(** X14.  Round trip through the stream.  Take a wallet transaction whose
    [mapValue] holds neither "n" nor "timesmart", whose order position, if
    not -1, is read back by [atoi64] from what [i64tostr] prints, and whose
    smart time, if not 0, is read back from what ["%u"] prints.  Reading
    what it writes, into any object, gives back its transaction, note data,
    order form, times, flags, account and order position, and its [mapValue]
    without the reserved keys; the caches are cleared and no wallet is
    bound. *)
Theorem CWalletTx_roundtrip
    (wtx other : CWalletTx CMerkleTx mapNoteData_t CWallet) :
  mapValue _ _ _ wtx !! "n"%string = None ->
  mapValue _ _ _ wtx !! "timesmart"%string = None ->
  (nOrderPos _ _ _ wtx <> -1 ->
   atoi64 (i64tostr (nOrderPos _ _ _ wtx)) = nOrderPos _ _ _ wtx) ->
  (nTimeSmart _ _ _ wtx <> 0 ->
   to_uint (atoi64 (utostr (nTimeSmart _ _ _ wtx))) = nTimeSmart _ _ _ wtx) ->
  CWalletTx_Unserialize atoi64 _ _ _ other
    (fst (CWalletTx_Serialize i64tostr utostr _ _ _ wtx))
  = with_persistent _ _ _ (Init _ _ _ None other)
      (wtx_merkle _ _ _ wtx) (mapNoteData _ _ _ wtx)
      (erase_reserved (mapValue _ _ _ wtx)) (vOrderForm _ _ _ wtx)
      (fTimeReceivedIsTxTime _ _ _ wtx) (nTimeReceived _ _ _ wtx)
      (nTimeSmart _ _ _ wtx) (fFromMe _ _ _ wtx) (strFromAccount _ _ _ wtx)
      (nOrderPos _ _ _ wtx).
Proof.
  intros Hn Hts Hpos Hsmart.
  unfold CWalletTx_Unserialize, CWalletTx_Serialize. simpl.
  set (v1 := <["fromaccount"%string := strFromAccount _ _ _ wtx]>
               (mapValue _ _ _ wtx)).
  set (v2 := WriteOrderPos i64tostr (nOrderPos _ _ _ wtx) v1).
  set (v3 := if nTimeSmart _ _ _ wtx =? 0 then v2
             else <["timesmart"%string := utostr (nTimeSmart _ _ _ wtx)]> v2).
  assert (Hfrom : v3 !! "fromaccount"%string = Some (strFromAccount _ _ _ wtx)).
  { unfold v3, v2, v1, WriteOrderPos.
    destruct (nTimeSmart _ _ _ wtx =? 0), (nOrderPos _ _ _ wtx =? -1);
      repeat (rewrite lookup_insert_ne by done); by rewrite lookup_insert_eq. }
  assert (Herase : erase_reserved v3 = erase_reserved (mapValue _ _ _ wtx)).
  { unfold v3, v2, v1. destruct (nTimeSmart _ _ _ wtx =? 0).
    - rewrite erase_reserved_WriteOrderPos.
      apply erase_reserved_insert, reserved_fromaccount.
    - rewrite erase_reserved_insert by apply reserved_timesmart.
      rewrite erase_reserved_WriteOrderPos.
      apply erase_reserved_insert, reserved_fromaccount. }
  assert (Horder : ReadOrderPos atoi64 v3 = nOrderPos _ _ _ wtx).
  { unfold ReadOrderPos, v3, v2, v1, WriteOrderPos.
    destruct (Z.eqb_spec (nOrderPos _ _ _ wtx) (-1)) as [Heq | Hne].
    - destruct (nTimeSmart _ _ _ wtx =? 0);
        repeat (rewrite lookup_insert_ne by done); by rewrite Hn.
    - destruct (nTimeSmart _ _ _ wtx =? 0);
        repeat (rewrite lookup_insert_ne by done);
        rewrite lookup_insert_eq; by apply Hpos. }
  assert (Htime : match v3 !! "timesmart"%string with
                  | Some _ => to_uint (atoi64 (fst (subscript v3 "timesmart")))
                  | None => 0
                  end = nTimeSmart _ _ _ wtx).
  { unfold subscript, v3, v2, v1, WriteOrderPos.
    destruct (Z.eqb_spec (nTimeSmart _ _ _ wtx) 0) as [Heq | Hne].
    - destruct (nOrderPos _ _ _ wtx =? -1);
        repeat (rewrite lookup_insert_ne by done); by rewrite Hts.
    - rewrite lookup_insert_eq. simpl. by apply Hsmart. }
  unfold subscript at 1. rewrite Hfrom. simpl.
  rewrite Horder, Htime, Herase. reflexivity.
Qed.

(** X16.  An object just read from a stream points to no wallet and has all
    nine cache flags cleared, the eight that [MarkDirty] resets and
    [fImmatureCreditCached], which it does not.  So [MarkDirty] leaves the
    object as it is, and [BindWallet] changes nothing in it but the wallet it
    points to. *)
Theorem BindWallet_after_Unserialize
    (wtx : CWalletTx CMerkleTx mapNoteData_t CWallet)
    (stream : CWalletTx_stream CMerkleTx mapNoteData_t) (pwalletIn : CWallet) :
  let read := CWalletTx_Unserialize atoi64 _ _ _ wtx stream in
  pwallet _ _ _ read = None /\
  (fDebitCached _ _ _ read = false /\
   fCreditCached _ _ _ read = false /\
   fImmatureCreditCached _ _ _ read = false /\
   fAvailableCreditCached _ _ _ read = false /\
   fWatchDebitCached _ _ _ read = false /\
   fWatchCreditCached _ _ _ read = false /\
   fImmatureWatchCreditCached _ _ _ read = false /\
   fAvailableWatchCreditCached _ _ _ read = false /\
   fChangeCached _ _ _ read = false) /\
  MarkDirty _ _ _ read = read /\
  BindWallet _ _ _ pwalletIn read
  = mkWalletTx _ _ _ (wtx_merkle _ _ _ read) (mapNoteData _ _ _ read)
      (Some pwalletIn)
      (fDebitCached _ _ _ read) (fCreditCached _ _ _ read)
      (fImmatureCreditCached _ _ _ read) (fAvailableCreditCached _ _ _ read)
      (fWatchDebitCached _ _ _ read) (fWatchCreditCached _ _ _ read)
      (fImmatureWatchCreditCached _ _ _ read)
      (fAvailableWatchCreditCached _ _ _ read) (fChangeCached _ _ _ read)
      (nDebitCached _ _ _ read) (nCreditCached _ _ _ read)
      (nImmatureCreditCached _ _ _ read) (nAvailableCreditCached _ _ _ read)
      (nWatchDebitCached _ _ _ read) (nWatchCreditCached _ _ _ read)
      (nImmatureWatchCreditCached _ _ _ read)
      (nAvailableWatchCreditCached _ _ _ read) (nChangeCached _ _ _ read)
      (mapValue _ _ _ read) (vOrderForm _ _ _ read)
      (fTimeReceivedIsTxTime _ _ _ read) (nTimeReceived _ _ _ read)
      (nTimeSmart _ _ _ read) (fFromMe _ _ _ read) (strFromAccount _ _ _ read)
      (nOrderPos _ _ _ read).
Proof.
  unfold CWalletTx_Unserialize.
  destruct (subscript (s_mapValue _ _ stream) "fromaccount") as [from values].
  done.
Qed.

End WalletTxFacts.

(** ** Records without inputs *)

Section AvailabilityFacts.

Variable MAX_MONEY : CAmount.
Variable IsNull : COutPoint -> bool.

(** X17.  [CheckInputsAvailability] rejects exactly the records that have
    neither an input nor a joinsplit, with "bad-txns-vin-empty", and it is
    the only check on the inputs to do so: [CheckInputsAmount],
    [CheckInputsDuplication] and [CheckInputsInteraction] accept every such
    record, whatever its outputs.  A coinbase record always passes it. *)
Theorem CheckInputsAvailability_empty (tx : CTransaction)
    (st : CValidationState) :
  (fst (CheckInputsAvailability tx st) = false <->
     GetVin tx = [] /\ GetVjoinsplit tx = []) /\
  (GetVin tx = [] -> GetVjoinsplit tx = [] ->
     CheckInputsAvailability tx st = rejected 10 "bad-txns-vin-empty" st /\
     CheckInputsAmount MAX_MONEY tx st = (true, st) /\
     CheckInputsDuplication tx st = (true, st) /\
     CheckInputsInteraction IsNull tx st = (true, st)) /\
  (IsCoinBase IsNull tx = true ->
     CheckInputsAvailability tx st = (true, st)).
Proof.
  unfold CheckInputsAvailability, CheckInputsAmount, CheckInputsDuplication,
    CheckInputsInteraction, IsCoinBase.
  destruct (GetVin tx) as [| txin vin], (GetVjoinsplit tx) as [| js vjs];
    simpl; repeat split; try done; try (intros [? ?]; done).
  all: by destruct vin.
Qed.

End AvailabilityFacts.

(** ** Examples *)

(** [TxnBegin] is refused: nothing is written. *)
Example SetBestChainINTERNAL_not_begun :
  SetBestChainINTERNAL db_scripted [(1%N, tt); (2%N, tt)] 0 tt [No]
  = (Returned, ([], [(TxnBegin, No)])).
Proof. reflexivity. Qed.

(** Every write is taken: all entries, the cache size and the best block are
    written and committed. *)
Example SetBestChainINTERNAL_committed :
  SetBestChainINTERNAL db_scripted [(1%N, tt); (2%N, tt)] 0 tt []
  = (Returned,
     ([], [(TxnBegin, Yes); (WriteTx 1%N tt, Yes); (WriteTx 2%N tt, Yes);
           (WriteWitnessCacheSize 0, Yes); (WriteBestBlock tt, Yes);
           (TxnCommit, Yes)])).
Proof. reflexivity. Qed.

(** The second entry of the wallet is refused: [TxnAbort] follows and nothing
    else is written. *)
Example SetBestChainINTERNAL_refused :
  SetBestChainINTERNAL db_scripted [(1%N, tt); (2%N, tt); (3%N, tt)] 0 tt
    [Yes; Yes; No]
  = (Returned,
     ([], [(TxnBegin, Yes); (WriteTx 1%N tt, Yes); (WriteTx 2%N tt, No);
           (TxnAbort, Yes)])).
Proof. reflexivity. Qed.

(** The best block throws a [std::exception]: the handler aborts. *)
Example SetBestChainINTERNAL_threw :
  SetBestChainINTERNAL db_scripted [(1%N, tt)] 0 tt
    [Yes; Yes; Yes; Threw StdException]
  = (Returned,
     ([], [(TxnBegin, Yes); (WriteTx 1%N tt, Yes);
           (WriteWitnessCacheSize 0, Yes);
           (WriteBestBlock tt, Threw StdException); (TxnAbort, Yes)])).
Proof. reflexivity. Qed.

(** A write throws something that is not a [std::exception]: it leaves the
    function, and the transaction is neither aborted nor committed. *)
Example SetBestChainINTERNAL_threw_other :
  SetBestChainINTERNAL db_scripted [(1%N, tt)] 0 tt
    [Yes; Threw OtherException]
  = (Thrown OtherException,
     ([], [(TxnBegin, Yes); (WriteTx 1%N tt, Threw OtherException)])).
Proof. reflexivity. Qed.

(** A write is refused and the [TxnAbort] after it throws a [std::exception]:
    the handler calls [TxnAbort] again. *)
Example SetBestChainINTERNAL_abort_twice :
  SetBestChainINTERNAL db_scripted [(1%N, tt)] 0 tt
    [Yes; No; Threw StdException; No]
  = (Returned,
     ([], [(TxnBegin, Yes); (WriteTx 1%N tt, No);
           (TxnAbort, Threw StdException); (TxnAbort, No)])).
Proof. reflexivity. Qed.

(** ** Witnesses *)

Lemma CheckAmountRange_true_iff_witness :
  int64 7 /\
  fst (CheckAmountRange MAX_MONEY_zen (ccout_of 5) 7) = true /\
  snd (CheckAmountRange MAX_MONEY_zen (ccout_of 5) 7) = 12.
Proof.
  assert (Hmax : MAX_MONEY_zen <= INT64_MAX) by (vm_compute; discriminate).
  assert (Hcum : int64 7) by (split; vm_compute; discriminate).
  destruct (CheckAmountRange_true_iff MAX_MONEY_zen Hmax (ccout_of 5) 7 Hcum)
    as [Hiff Hsnd].
  assert (Htrue : fst (CheckAmountRange MAX_MONEY_zen (ccout_of 5) 7) = true).
  { apply Hiff. repeat split; reflexivity. }
  split; [exact Hcum |]. split; [exact Htrue |]. exact (Hsnd Htrue).
Defined.

Lemma CheckAmountRange_false_accumulator_witness :
  snd (CheckAmountRange MAX_MONEY_zen (ccout_of 5) MAX_MONEY_zen)
    = MAX_MONEY_zen + 5.
Proof.
  assert (Hmax : MAX_MONEY_zen <= INT64_MAX) by (vm_compute; discriminate).
  assert (Hcum : int64 MAX_MONEY_zen) by (split; vm_compute; discriminate).
  destruct (CheckAmountRange_false_accumulator MAX_MONEY_zen Hmax (ccout_of 5)
              MAX_MONEY_zen Hcum) as [Hkept _]; [reflexivity |].
  destruct Hkept as (_ & _ & _ & Hexact);
    [simpl; discriminate | reflexivity |].
  apply Hexact. vm_compute. discriminate.
Defined.

Lemma MAX_MONEY_zen_int64 : MAX_MONEY_zen <= INT64_MAX.
Proof. vm_compute. discriminate. Qed.

Lemma CheckInputsAmount_iff_witness :
  CheckInputsAmount MAX_MONEY_zen (tx_of [] [] [js_of 0 5; js_of 0 7]) []
  = (true, []).
Proof.
  pose proof (CheckInputsAmount_iff MAX_MONEY_zen MAX_MONEY_zen_int64
                (tx_of [] [] [js_of 0 5; js_of 0 7]) []) as (_ & Hok & _).
  apply Hok.
  apply (running_ok_sums MAX_MONEY_zen); [lia |].
  simpl. unfold in_range. vm_compute. intuition discriminate.
Defined.

Lemma CheckOutputsAmount_first_violation_witness :
  CheckOutputsAmount MAX_MONEY_zen
    (tx_of [] [out_of 5; out_of (-1); out_of (MAX_MONEY_zen + 1)] [js_of 3 4]) []
  = rejected 100 "bad-txns-vout-negative" [].
Proof.
  pose proof (CheckOutputsAmount_first_violation MAX_MONEY_zen
                MAX_MONEY_zen_int64
                (tx_of [] [out_of 5; out_of (-1); out_of (MAX_MONEY_zen + 1)]
                   [js_of 3 4]) []) as [Hfirst _].
  destruct (Hfirst [out_of 5] (out_of (-1)) [out_of (MAX_MONEY_zen + 1)])
    as (Hneg & _ & _).
  - reflexivity.
  - apply (running_ok_sums MAX_MONEY_zen); [lia |].
    simpl. unfold in_range. vm_compute. intuition discriminate.
  - apply Hneg. simpl. lia.
Defined.

Lemma CheckOutputsAmount_joinsplits_iff_witness :
  CheckOutputsAmount MAX_MONEY_zen
    (tx_of [] [out_of 5] [js_of 3 0; js_of 2 4]) []
  = rejected 100 "bad-txns-vpubs-both-nonzero" [].
Proof.
  pose proof (CheckOutputsAmount_joinsplits_iff MAX_MONEY_zen
                MAX_MONEY_zen_int64
                (tx_of [] [out_of 5] [js_of 3 0; js_of 2 4]) [])
    as Hthm.
  destruct Hthm as (_ & _ & _ & Hboth).
  - apply (running_ok_sums MAX_MONEY_zen); [lia |].
    simpl. unfold in_range. vm_compute. intuition discriminate.
  - apply (Hboth [js_of 3 0] (js_of 2 4) []).
    + reflexivity.
    + apply (js_running_ok_pass MAX_MONEY_zen); [simpl; lia |].
      simpl. unfold js_well_formed, in_range. vm_compute.
      intuition discriminate.
    + unfold in_range. vm_compute. intuition discriminate.
    + unfold in_range. vm_compute. intuition discriminate.
    + simpl. lia.
    + simpl. lia.
Defined.

(** A record that forwards one coin to a sidechain and has nothing else. *)
Lemma forward_transfer_accepted :
  fst (CheckOutputsAmount MAX_MONEY_zen tx_forward []) = true /\
  fst (CheckInputsAmount MAX_MONEY_zen tx_forward []) = true /\
  GetValueOut MAX_MONEY_zen tx_forward = Some COIN /\
  GetJoinSplitValueIn MAX_MONEY_zen tx_forward = Some 0.
Proof. repeat split; vm_compute; reflexivity. Qed.

(** C1 as stated fails: the record above is accepted by both checks, its
    transparent outputs and joinsplits sum to nothing, and [GetValueOut]
    minus [GetJoinSplitValueIn] is one coin. *)
Lemma value_conservation_counterexample :
  ~ (forall (tx : CTransaction) (st : CValidationState) (valueOut valueIn : CAmount),
       fst (CheckOutputsAmount MAX_MONEY_zen tx st) = true ->
       fst (CheckInputsAmount MAX_MONEY_zen tx st) = true ->
       GetValueOut MAX_MONEY_zen tx = Some valueOut ->
       GetJoinSplitValueIn MAX_MONEY_zen tx = Some valueIn ->
       sum_amounts nValue (vout tx) + sum_amounts vpub_old (vjoinsplit tx)
         - sum_amounts vpub_new (vjoinsplit tx)
       = valueOut - valueIn).
Proof.
  intros Hclaim.
  destruct forward_transfer_accepted as (Hout & Hin & Hvo & Hvi).
  specialize (Hclaim tx_forward [] COIN 0 Hout Hin Hvo Hvi).
  vm_compute in Hclaim. discriminate.
Qed.

Lemma value_conservation_witness :
  exists valueOut valueIn : CAmount,
    GetValueOut MAX_MONEY_zen tx_mixed = Some valueOut /\
    GetJoinSplitValueIn MAX_MONEY_zen tx_mixed = Some valueIn /\
    valueOut = 28 * COIN /\ valueIn = 8 * COIN /\
    (2 + 3) * COIN + (7 + 0) * COIN + (4 + 5 + (1 + 6)) * COIN
      - (0 + 8) * COIN
    = valueOut - valueIn.
Proof.
  destruct (value_conservation MAX_MONEY_zen MAX_MONEY_zen_int64
              tx_mixed [] [])
    as (vo & vi & Hvo & Hvi & Hin & Hout & Heq).
  - reflexivity.
  - reflexivity.
  - apply (running_ok_sums MAX_MONEY_zen); [lia |].
    simpl. unfold in_range. vm_compute. intuition discriminate.
  - apply (running_ok_sums MAX_MONEY_zen); [lia |].
    simpl. unfold in_range. vm_compute. intuition discriminate.
  - apply (running_ok_sums MAX_MONEY_zen); [lia |].
    simpl. unfold in_range. vm_compute. intuition discriminate.
  - exists vo, vi. split; [exact Hvo |]. split; [exact Hvi |].
    split; [rewrite Hout; vm_compute; reflexivity |].
    split; [rewrite Hin; vm_compute; reflexivity |].
    rewrite <- Heq; [vm_compute; reflexivity | vm_compute; discriminate].
Defined.

Lemma CheckInputsDuplication_iff_witness :
  CheckInputsDuplication
    (tx_of [mkTxIn (mkOutPoint 7%N 0%N) [] 0%N; mkTxIn (mkOutPoint 7%N 1%N) [] 0%N]
       [] [mkJSDescription 0 0 0%N (3%N, 4%N);
           mkJSDescription 0 0 0%N (5%N, 3%N)]) []
  = rejected 100 "bad-joinsplits-nullifiers-duplicate" [].
Proof.
  pose proof (CheckInputsDuplication_iff
    (tx_of [mkTxIn (mkOutPoint 7%N 0%N) [] 0%N; mkTxIn (mkOutPoint 7%N 1%N) [] 0%N]
       [] [mkJSDescription 0 0 0%N (3%N, 4%N);
           mkJSDescription 0 0 0%N (5%N, 3%N)]) [])
    as (_ & _ & Hnf & _).
  apply Hnf.
  - apply (bool_decide_unpack _). vm_compute. exact I.
  - apply (bool_decide_unpack _). vm_compute. exact I.
Defined.

Lemma CheckInputsInteraction_iff_witness :
  CheckInputsInteraction IsNull_zen tx_coinbase [] = (true, []).
Proof.
  pose proof (CheckInputsInteraction_iff IsNull_zen tx_coinbase [])
    as [Hcoinbase _].
  destruct Hcoinbase as (_ & _ & _ & Hpass); [reflexivity |].
  apply (Hpass (coinbase_in 4)); [reflexivity | reflexivity |].
  simpl. lia.
Defined.

(** The coinbase of the example scenario pays out fifty coins. *)
Lemma tx_coinbase_value_out :
  GetValueOut MAX_MONEY_zen tx_coinbase = Some (50 * 10 ^ 8).
Proof. vm_compute. reflexivity. Qed.

Lemma GetValueIn_coinbase_witness :
  IsCoinBase IsNull_zen tx_coinbase_joinsplit = true /\
  GetJoinSplitValueIn MAX_MONEY_zen tx_coinbase_joinsplit = Some 5 /\
  GetValueIn MAX_MONEY_zen IsNull_zen tx_coinbase_joinsplit view_empty
  = (Some 0, []).
Proof.
  split; [reflexivity |]. split; [vm_compute; reflexivity |].
  apply (GetValueIn_coinbase IsNull_zen MAX_MONEY_zen tx_coinbase_joinsplit
           view_empty).
  reflexivity.
Defined.

Lemma Randomized_roundtrip_witness :
  exists r,
    Randomized gen_list prove_example true 0%N 0%N [10; 20] [30; 40] 0 0 false
      [0; 1] = Some r /\
    r_inputs r = [20; 10] /\ r_inputMap r = [1%N; 0%N] /\
    r_outputs r = [30; 40] /\ r_outputMap r = [0%N; 1%N] /\
    r_gen r = [] /\
    unshuffle (r_inputs r) (r_inputMap r) = Some [10; 20] /\
    unshuffle (r_outputs r) (r_outputMap r) = Some [30; 40].
Proof.
  destruct (Randomized_roundtrip gen_list prove_example true 0%N 0%N
              [10; 20] [30; 40] 0 0 false [0; 1] eq_refl eq_refl)
    as (Hround & Hiff & _).
  destruct (proj2 Hiff) as [r Hr]; [vm_compute; auto |].
  exists r. split; [exact Hr |].
  destruct (Hround r Hr)
    as (_ & _ & _ & _ & _ & _ & Hui & Huo & Hi & Him & Ho & Hom & Hg & _).
  split; [exact Hi |]. split; [exact Him |]. split; [exact Ho |].
  split; [exact Hom |]. split; [exact Hg |]. split; [exact Hui | exact Huo].
Defined.

Lemma CalculateModifiedSize_exact_witness :
  CalculateModifiedSize (fun _ => 0)
    (tx_of [spend_in 7%N 0%N 107; spend_in 7%N 1%N 200] [out_of 5] []) 400
  = 400 - (41 + 107) - (41 + 110).
Proof.
  apply (CalculateModifiedSize_exact (fun _ => 0)
           (tx_of [spend_in 7%N 0%N 107; spend_in 7%N 1%N 200] [out_of 5] [])
           400).
  - discriminate.
  - vm_compute. reflexivity.
Defined.

Lemma CheckInputsAmount_after_CheckOutputsAmount_witness :
  fst (CheckInputsAmount MAX_MONEY_zen
         (tx_of [] [out_of 5] [js_of 0 MAX_MONEY_zen; js_of 0 1]) []) = false.
Proof.
  destruct (CheckInputsAmount_after_CheckOutputsAmount MAX_MONEY_zen
              MAX_MONEY_zen_int64
              (tx_of [] [out_of 5] [js_of 0 MAX_MONEY_zen; js_of 0 1]) [] [])
    as [_ Hiff].
  - vm_compute. discriminate.
  - vm_compute. reflexivity.
  - apply not_true_is_false. intros Htrue. apply Hiff in Htrue.
    vm_compute in Htrue. apply Htrue. reflexivity.
Defined.

Lemma GetValueIn_unresolved_witness :
  GetValueIn MAX_MONEY_zen IsNull_zen
    (tx_of [spend_in 7%N 0%N 10; spend_in 8%N 0%N 10; spend_in 9%N 0%N 10]
       [out_of 5] [])
    (view_one 7%N 0%N 6)
  = (None, [spend_in 7%N 0%N 10; spend_in 8%N 0%N 10]).
Proof.
  destruct (GetValueIn_unresolved IsNull_zen MAX_MONEY_zen
              (tx_of [spend_in 7%N 0%N 10; spend_in 8%N 0%N 10;
                      spend_in 9%N 0%N 10] [out_of 5] [])
              (view_one 7%N 0%N 6)) as [Hfirst _]; [reflexivity |].
  apply (Hfirst [spend_in 7%N 0%N 10] (spend_in 8%N 0%N 10)
           [spend_in 9%N 0%N 10]); [reflexivity | | reflexivity].
  constructor; [| constructor]. exists (out_of 6). reflexivity.
Defined.

(** A key hash made of bytes equal to [OP_HASH160] comes back as well: the
    constructor stops at the first [OP_HASH160] of the script. *)
Lemma CBackwardTransferOut_roundtrip_witness :
  CBackwardTransferOut_of_CTxOut OP_HASH160_zen
    (CTxOut_of_CBackwardTransferOut OP_DUP_zen OP_HASH160_zen
       OP_EQUALVERIFY_zen OP_CHECKSIG_zen push_direct btout_example)
  = Built btout_example.
Proof.
  apply (CBackwardTransferOut_roundtrip OP_DUP_zen OP_HASH160_zen
           OP_EQUALVERIFY_zen OP_CHECKSIG_zen push_direct btout_example).
  - discriminate.
  - reflexivity.
  - reflexivity.
Defined.

Lemma CTransactionBase_GetValueOut_returns_witness :
  CTransactionBase_GetValueOut MAX_MONEY_zen (tx_of [] [out_of 5; out_of 7] [])
  = Some 12 /\
  CTransactionBase_GetValueOut MAX_MONEY_zen
    (tx_of [] [out_of 5; out_of (-7)] []) = None.
Proof.
  split.
  - destruct (CTransactionBase_GetValueOut_returns MAX_MONEY_zen
                MAX_MONEY_zen_int64 (tx_of [] [out_of 5; out_of 7] []))
      as (Hiff & _ & _).
    apply Hiff. split; [| reflexivity].
    apply (running_ok_sums MAX_MONEY_zen); [lia |].
    simpl. unfold in_range. vm_compute. intuition discriminate.
  - destruct (CTransactionBase_GetValueOut_returns MAX_MONEY_zen
                MAX_MONEY_zen_int64 (tx_of [] [out_of 5; out_of (-7)] []))
      as (_ & Hnone & _).
    apply Hnone. intros Hsums.
    apply (running_ok_sums MAX_MONEY_zen) in Hsums; [| lia].
    simpl in Hsums. unfold in_range in Hsums. lia.
Defined.

Lemma GetJoinSplitValueIn_iff_CheckInputsAmount_witness :
  GetJoinSplitValueIn MAX_MONEY_zen (tx_of [] [] [js_of 0 5; js_of 0 7])
  = Some 12.
Proof.
  destruct (GetJoinSplitValueIn_iff_CheckInputsAmount MAX_MONEY_zen
              MAX_MONEY_zen_int64 (tx_of [] [] [js_of 0 5; js_of 0 7]) [])
    as [Hiff Hval].
  destruct (proj2 Hiff eq_refl) as [v Hv].
  rewrite Hv. f_equal. exact (Hval v Hv).
Defined.

Lemma OrderPos_roundtrip_witness :
  ReadOrderPos atoi64_example
    (WriteOrderPos i64tostr_example 42 {["comment" := "rent"]}%string) = 42 /\
  ReadOrderPos atoi64_example
    (WriteOrderPos i64tostr_example (-1) {["n" := "17"]}%string) = 17.
Proof.
  destruct (OrderPos_roundtrip atoi64_example i64tostr_example 42
              {["comment" := "rent"]}%string) as (Hwritten & _).
  destruct (OrderPos_roundtrip atoi64_example i64tostr_example (-1)
              {["n" := "17"]}%string) as (_ & _ & _ & Hstale & _).
  split.
  - apply Hwritten; [discriminate | vm_compute; reflexivity].
  - rewrite (Hstale "17"%string); [vm_compute; reflexivity | reflexivity].
Defined.

Lemma CWalletTx_roundtrip_witness :
  CWalletTx_Unserialize atoi64_example unit unit unit
    (Init unit unit unit None wtx_example)
    (fst (CWalletTx_Serialize i64tostr_example i64tostr_example unit unit unit
            wtx_example))
  = mkWalletTx unit unit unit tt tt None
      false false false false false false false false false
      0 0 0 0 0 0 0 0 0
      {["comment" := "rent"]}%string [("Message", "hello")]%string
      1 1500000000 1500000600 1 "savings"%string 42.
Proof.
  rewrite (CWalletTx_roundtrip atoi64_example i64tostr_example
             i64tostr_example wtx_example
             (Init unit unit unit None wtx_example)).
  - vm_compute. reflexivity.
  - reflexivity.
  - reflexivity.
  - intros _. vm_compute. reflexivity.
  - intros _. vm_compute. reflexivity.
Defined.
